(** * twitterfeed: a shallow embedding of [twitter.go]

    The development follows the source file top-down.  The Go library
    functions the code calls ([strings.ToLower], [strings.Contains],
    [strings.Join], [url.Values.Encode], [strconv.Itoa],
    [bufio.Scanner], [encoding/json], [net.DialTimeout]) are modelled
    on Go strings as byte sequences; what depends on tables or secrets
    outside the repository (the Unicode case mapping, the OAuth
    signature, whether a body's reader reports its end with the last
    bytes) is a parameter.  [foundTerms] and the three closures of
    [Run] (the Dial hook, the recycler goroutine and the pump
    goroutine) are translated statement by statement.  The two
    goroutines, the consumer and the environment (the clock, the
    context, the network) are interleaved by a labelled step function
    on a session state that records every effect in a trace.

    The definitions come first, then the properties for every reader,
    term list, signer and schedule, then the same properties evaluated
    on concrete sessions. *)

From Stdlib Require Import List String Ascii Bool Arith ZArith NArith Lia.
From Stdlib Require Import DecimalString.
Import ListNotations.

Local Open Scope string_scope.
Local Open Scope list_scope.

(* ================================================================== *)
(** * Go strings: package [strings] *)
(* ================================================================== *)

(** A Go [string] is an immutable sequence of bytes; [len(s)] is
    [String.length s]. *)

Definition byte_val (c : ascii) : N := N_of_ascii c.

(** [strings.HasPrefix]. *)
Fixpoint HasPrefix (s prefix : string) {struct prefix} : bool :=
  match prefix with
  | EmptyString => true
  | String p prefix' =>
      match s with
      | EmptyString => false
      | String c s' => Ascii.eqb c p && HasPrefix s' prefix'
      end
  end.

(** [strings.Index]: the index of the first instance of [substr] in
    [s], or -1 when [substr] is not present. *)
Fixpoint Index (s substr : string) : Z :=
  if HasPrefix s substr then 0%Z
  else match s with
       | EmptyString => (-1)%Z
       | String _ s' =>
           let i := Index s' substr in
           if (i <? 0)%Z then (-1)%Z else (i + 1)%Z
       end.

(** [strings.Contains(s, substr)] is [Index(s, substr) >= 0]. *)
Definition Contains (s substr : string) : bool := (0 <=? Index s substr)%Z.

(** What "occurs as a substring of" means. *)
Definition Substring (sub s : string) : Prop :=
  exists pre post, s = (pre ++ sub ++ post)%string.

(** The scan at the head of [strings.ToLower]. *)
Fixpoint isASCII (s : string) : bool :=
  match s with
  | EmptyString => true
  | String c s' => (byte_val c <? 128)%N && isASCII s'
  end.

Definition isUpper (c : ascii) : bool :=
  (65 <=? byte_val c)%N && (byte_val c <=? 90)%N.

Fixpoint hasUpper (s : string) : bool :=
  match s with
  | EmptyString => false
  | String c s' => isUpper c || hasUpper s'
  end.

(** [c += 'a' - 'A'] on an upper-case ASCII byte. *)
Definition lowerByte (c : ascii) : ascii :=
  if isUpper c then ascii_of_N (byte_val c + 32) else c.

Fixpoint mapBytes (f : ascii -> ascii) (s : string) : string :=
  match s with
  | EmptyString => EmptyString
  | String c s' => String (f c) (mapBytes f s')
  end.

(** [l1] is [l2] with some elements left out, the order kept. *)
Inductive Subseq {A : Type} : list A -> list A -> Prop :=
| Subseq_nil : Subseq [] []
| Subseq_keep x l1 l2 : Subseq l1 l2 -> Subseq (x :: l1) (x :: l2)
| Subseq_skip x l1 l2 : Subseq l1 l2 -> Subseq l1 (x :: l2).

(** [Selects P l res]: [res] holds exactly the elements of [l] that
    satisfy [P], each as often as and in the order in which [l] has it. *)
Inductive Selects {A : Type} (P : A -> Prop) : list A -> list A -> Prop :=
| Selects_nil : Selects P [] []
| Selects_take x l res : P x -> Selects P l res -> Selects P (x :: l) (x :: res)
| Selects_drop x l res : ~ P x -> Selects P l res -> Selects P (x :: l) res.

Section Twitterfeed.

(** [strings.Map(unicode.ToLower, s)]: the path [ToLower] takes on a
    string with a byte outside ASCII.  It depends on the UTF-8 decoder
    and on the Unicode case tables of the Go runtime. *)
Variable mapUnicodeLower : string -> string.

(** [strings.ToLower]. *)
Definition ToLower (s : string) : string :=
  if isASCII s then
    if hasUpper s then mapBytes lowerByte s else s
  else mapUnicodeLower s.

(** [strings.Join]. *)
Fixpoint joinRest (elems : list string) (sep : string) : string :=
  match elems with
  | [] => ""
  | s :: rest => (sep ++ s ++ joinRest rest sep)%string
  end.

Definition Join (elems : list string) (sep : string) : string :=
  match elems with
  | [] => ""
  | [e] => e
  | e :: rest => (e ++ joinRest rest sep)%string
  end.

(* ================================================================== *)
(** * Packages [strconv], [net/url], [bufio] and [time] *)
(* ================================================================== *)

(** [strconv.Itoa]. *)
Definition Itoa (i : Z) : string := NilZero.string_of_int (Z.to_int i).

(** [len(s)] as a Go [int]. *)
Definition len (s : string) : Z := Z.of_nat (String.length s).

(** [url.shouldEscape(c, encodeQueryComponent)]: letters, digits and
    the marks [-], [_], [.], [~] are kept, every other byte is escaped. *)
Definition shouldEscape (c : ascii) : bool :=
  let n := byte_val c in
  negb (((97 <=? n) && (n <=? 122)) || ((65 <=? n) && (n <=? 90))
        || ((48 <=? n) && (n <=? 57))
        || (n =? 45) || (n =? 95) || (n =? 46) || (n =? 126))%N.

(** [upperhex[d]] for a nibble [d]. *)
Definition upperhex (d : N) : ascii :=
  if (d <? 10)%N then ascii_of_N (48 + d) else ascii_of_N (55 + d).

(** [url.QueryEscape]: a space becomes [+], an escaped byte [%XX]. *)
Fixpoint QueryEscape (s : string) : string :=
  match s with
  | EmptyString => EmptyString
  | String c s' =>
      if shouldEscape c then
        if (byte_val c =? 32)%N then String "+" (QueryEscape s')
        else String "%" (String (upperhex (byte_val c / 16))
                          (String (upperhex (byte_val c mod 16)) (QueryEscape s')))
      else String c (QueryEscape s')
  end.

(** [url.Values]: a map from key to values, kept here as the list of its
    entries in the sorted key order in which [Encode] walks it. *)
Definition Values := list (string * list string).

Fixpoint encodeValues (keyEscaped : string) (vs : list string) (buf : string) : string :=
  match vs with
  | [] => buf
  | v :: vs' =>
      let buf := if (0 <? len buf)%Z then (buf ++ "&")%string else buf in
      encodeValues keyEscaped vs' (buf ++ keyEscaped ++ "=" ++ QueryEscape v)%string
  end.

(** [url.Values.Encode]. *)
Definition Encode (v : Values) : string :=
  fold_left (fun buf kv => encodeValues (QueryEscape (fst kv)) (snd kv) buf) v "".

(** [bufio.MaxScanTokenSize]. *)
Definition MaxScanTokenSize : N := 65536.

(** The bytes before the first line feed. *)
Fixpoint upToNewline (s : string) : string :=
  match s with
  | EmptyString => EmptyString
  | String c s' => if (byte_val c =? 10)%N then EmptyString else String c (upToNewline s')
  end.

(** [bufio.dropCR]: a trailing carriage return is dropped. *)
Fixpoint dropCR (s : string) : string :=
  match s with
  | EmptyString => EmptyString
  | String c EmptyString => if (byte_val c =? 13)%N then EmptyString else s
  | String c s' => String c (dropCR s')
  end.

(** Whether the reader of a response body reports [io.EOF] together
    with the last bytes of the body, as [net/http] does for a body with
    a Content-Length, or only on a further, empty read.  It depends on
    the transfer encoding and on how the bytes arrive. *)
Variable eofWithLastBytes : string -> bool.

(** [s := bufio.NewScanner(body); s.Scan(); s.Text()]: the first line
    of [body], or the empty string when that line does not fit the
    scanner's buffer.  A line shorter than the buffer is found, by its
    line feed or at the end of the body.  When the buffer is full and
    holds no line feed, [Scan] fails with [ErrTooLong] and the text is
    empty, unless the read that filled the buffer also reported the
    end of the body: then the split function is called at EOF first,
    and the whole body of [MaxScanTokenSize] bytes is the token. *)
Definition scanText (body : string) : string :=
  let line := upToNewline body in
  if (MaxScanTokenSize <=? N.of_nat (String.length line))%N then
    if (N.of_nat (String.length line) =? MaxScanTokenSize)%N
       && String.eqb line body && eofWithLastBytes body
    then dropCR line else ""
  else dropCR line.

(** [time.Duration] counts nanoseconds. *)
Definition Duration := Z.
Definition Second : Duration := 1000000000%Z.
Definition Minute : Duration := (60 * Second)%Z.

(* ================================================================== *)
(** * Package [encoding/json], as far as [Decode(&t)] on a [Tweet] goes *)
(* ================================================================== *)

(** Tweet is a single tweet. *)
Record Tweet := mkTweet {
  Text : string;        (* the body of the tweet *)
  Terms : list string   (* matching terms in the text *)
}.

(** [var t Tweet]. *)
Definition zeroTweet : Tweet := mkTweet "" [].

(** A syntactically well-formed JSON value. *)
#[local] Set Warnings "-register-all".
Inductive json :=
| JNull
| JBool (b : bool)
| JNumber (literal : string)
| JString (s : string)
| JArray (elems : list json)
| JObject (members : list (string * json)).

(** What one call of [decoder.Decode] finds on the response body. *)
Inductive frame :=
| FValue (j : json)      (* one complete JSON value *)
| FSyntaxError           (* bytes that are not JSON *)
| FEOF                   (* the server ended the stream *)
| FReadError.            (* the read failed: the socket was closed *)

Definition upperByte (c : ascii) : ascii :=
  if ((97 <=? byte_val c) && (byte_val c <=? 122))%N then ascii_of_N (byte_val c - 32) else c.

(** [json.foldName]: ASCII letters are upper-cased; the only two runes
    outside ASCII whose case orbit holds an ASCII letter, U+017F (long s,
    bytes C5 BF) and U+212A (Kelvin sign, bytes E2 84 AA), fold to [S]
    and [K]. *)
Fixpoint foldName (s : string) : string :=
  match s with
  | EmptyString => EmptyString
  | String c1 s1 =>
      match s1 with
      | EmptyString => String (upperByte c1) EmptyString
      | String c2 s2 =>
          if ((byte_val c1 =? 197) && (byte_val c2 =? 191))%N then String "S" (foldName s2)
          else
            match s2 with
            | EmptyString => String (upperByte c1) (foldName s1)
            | String c3 s3 =>
                if ((byte_val c1 =? 226) && (byte_val c2 =? 132) && (byte_val c3 =? 170))%N
                then String "K" (foldName s3)
                else String (upperByte c1) (foldName s1)
            end
      end
  end.

(** An object key selects the struct field of that exact name, or else
    the field whose folded name equals the folded key. *)
Definition keyIs (field key : string) : bool :=
  String.eqb key field || String.eqb (foldName key) (foldName field).

(** Storing a JSON value into the field [Text string]. *)
Definition storeText (v : json) (t : Tweet) : Tweet * bool :=
  match v with
  | JString s => (mkTweet s (Terms t), true)
  | JNull => (t, true)
  | _ => (t, false)
  end.

(** Storing a JSON value into one element of [Terms []string]. *)
Definition storeElem (v : json) : string * bool :=
  match v with
  | JString s => (s, true)
  | JNull => ("", true)
  | _ => ("", false)
  end.

(** Storing a JSON value into the field [Terms []string]. *)
Definition storeTerms (v : json) (t : Tweet) : Tweet * bool :=
  match v with
  | JArray elems =>
      (mkTweet (Text t) (map (fun e => fst (storeElem e)) elems),
       forallb (fun e => snd (storeElem e)) elems)
  | JNull => (mkTweet (Text t) [], true)
  | _ => (t, false)
  end.

(** Decoding the members of a JSON object into a [Tweet]: unknown keys
    are skipped, a value of the wrong type is recorded as an error and
    decoding goes on. *)
Fixpoint object (members : list (string * json)) (t : Tweet) : Tweet * bool :=
  match members with
  | [] => (t, true)
  | (k, v) :: rest =>
      let '(t1, ok1) :=
        if keyIs "Text" k then storeText v t
        else if keyIs "Terms" k then storeTerms v t
        else (t, true) in
      let '(t2, ok2) := object rest t1 in
      (t2, ok1 && ok2)
  end.

(** [json.Unmarshal] into a [*Tweet]. *)
Definition Unmarshal (j : json) (t : Tweet) : Tweet * bool :=
  match j with
  | JObject members => object members t
  | JNull => (t, true)
  | _ => (t, false)
  end.

(** [err := decoder.Decode(&t)]: the tweet after the call, and whether
    [err] is nil. *)
Definition Decode (f : frame) (t : Tweet) : Tweet * bool :=
  match f with
  | FValue j => Unmarshal j t
  | FSyntaxError | FEOF | FReadError => (t, false)
  end.

(* ================================================================== *)
(** * [foundTerms] *)
(* ================================================================== *)

(** foundTerms searches text for any of the terms and returns a list
    of any that appear. *)
Definition foundTerms (text : string) (terms : list string) : list string :=
  let text := ToLower text in
  fold_left
    (fun foundTerms term =>
       if Contains text (ToLower term) then foundTerms ++ [term] else foundTerms)
    terms [].

(* ================================================================== *)
(** * Credentials and the filter request *)
(* ================================================================== *)

(** TweetReader reads tweets. *)
Record TweetReader := mkTweetReader {
  consumerKey : string;
  consumerSecret : string;
  accessToken : string;
  accessSecret : string
}.

(** NewTweetReader creates a new TweetReader with the given credentials. *)
Definition NewTweetReader (consumerKey consumerSecret accessToken accessSecret : string)
  : TweetReader :=
  mkTweetReader consumerKey consumerSecret accessToken accessSecret.

(** [oauth.Credentials]. *)
Record Credentials := mkCredentials { Token : string; Secret : string }.

(** [AuthorizationHeader(creds, method, u, form)] on an [oauth.Client] of
    package [github.com/garyburd/go-oauth/oauth]: the client's
    credentials, the token credentials, the method, the URL and the
    form it signs. *)
Variable AuthorizationHeader : Credentials -> Credentials -> string -> string -> Values -> string.

(** [http.Header], with [Set] and [Get] on canonical keys. *)
Definition Header := list (string * string).

Definition HeaderSet (h : Header) (key value : string) : Header :=
  filter (fun kv => negb (String.eqb (fst kv) key)) h ++ [(key, value)].

Definition HeaderGet (h : Header) (key : string) : option string :=
  option_map snd (find (fun kv => String.eqb (fst kv) key) h).

(** [http.Request], the fields [Run] sets. *)
Record Request := mkRequest {
  Method : string;
  URL : string;
  Body : string;
  ContentLength : Z;
  Headers : Header
}.

(** [http.NewRequest(method, url, strings.NewReader(body))]. *)
Definition NewRequest (method url body : string) : Request :=
  mkRequest method url body (len body) [].

Definition setHeader (req : Request) (key value : string) : Request :=
  mkRequest (Method req) (URL req) (Body req) (ContentLength req)
            (HeaderSet (Headers req) key value).

Definition streamURL : string := "https://stream.twitter.com/1.1/statuses/filter.json".

(** [http.StatusOK]. *)
Definition StatusOK : Z := 200.

Section Run.

(** The receiver and the arguments of [Run]. *)
Variable r : TweetReader.
Variable terms : list string.

Definition creds : Credentials := mkCredentials (accessToken r) (accessSecret r).
Definition authClient : Credentials := mkCredentials (consumerKey r) (consumerSecret r).

(** [form := url.Values{"track": {strings.Join(terms, ",")}}]. *)
Definition form : Values := [("track", [Join terms ","])].

(** Lines 109-119: the request handed to [client.Do]. *)
Definition filterRequest : Request :=
  let formEnc := Encode form in
  let req := NewRequest "POST" streamURL formEnc in
  let req := setHeader req "Authorization"
               (AuthorizationHeader authClient creds "POST" streamURL form) in
  let req := setHeader req "Content-Type" "application/x-www-form-urlencoded" in
  setHeader req "Content-Length" (Itoa (len formEnc)).

(* ================================================================== *)
(** * The session started by [Run] *)
(* ================================================================== *)

(** A [net.Conn], named by the order in which [net.DialTimeout]
    returned it. *)
Definition handle := nat.

Inductive error :=
| ErrDialTimeout      (* the connection was not established in time *)
| ErrDial             (* the dial failed before the timeout *)
| ErrRoundTrip.       (* the exchange on an established connection failed *)

(** What the code does to the world, in the order it does it. *)
Inductive event :=
| EvLock                                           (* connLock.Lock() *)
| EvUnlock                                         (* connLock.Unlock() *)
| EvConnClose (c : handle)                         (* conn.Close() *)
| EvConnStore (c : option handle)                  (* conn = ... *)
| EvDialTimeout (timeout : Duration) (res : option handle)  (* net.DialTimeout *)
| EvDo (req : Request)                             (* client.Do(req) *)
| EvLogError (e : error)                           (* log.Println("Error getting response:", err) *)
| EvLogLine (line : string)                        (* log.Println(s.Text()) *)
| EvLogStatus (code : Z)                           (* log.Println("StatusCode =", code) *)
| EvBodyClose (c : handle)                         (* resp.Body.Close() *)
| EvSend (t : Tweet)                               (* tweetsChan <- t, received *)
| EvChanClose.                                     (* close(tweetsChan) *)

(** Where the pump goroutine (lines 101-147) stands. *)
Inductive pumpState :=
| PSelect                          (* line 105, before the select *)
| PRequest                         (* line 109, the default case was taken *)
| PAwait (c : handle)              (* line 120, client.Do has dialed c and waits *)
| PDecode (c : handle)             (* line 138, decoder.Decode reads from c *)
| PSend (c : handle) (t : Tweet)   (* line 142, blocked on tweetsChan <- t *)
| PExit.                           (* returned; close(tweetsChan) has run *)

(** Where the recycler goroutine (lines 76-100) stands: in its select,
    with the timer of [time.After] started at [armed], or returned. *)
Inductive recyclerState :=
| RSelect (armed : Z)
| RExit.

Record Session := mkSession {
  now : Z;                     (* the clock, in nanoseconds *)
  ctxDone : bool;              (* ctx.Done() is closed *)
  conn : option handle;        (* var conn net.Conn; None is nil *)
  dialed : nat;                (* connections net.DialTimeout has returned *)
  tweetsChan : list Tweet;     (* the values received from the channel, oldest first *)
  chanCloses : nat;            (* how often close(tweetsChan) ran *)
  pump : pumpState;
  recycler : recyclerState;
  trace : list event           (* oldest first *)
}.

(** The session as [Run] returns it: both goroutines started, nothing
    dialed, an open channel. *)
Definition Run : Session :=
  mkSession 0 false None 0 [] 0 PSelect (RSelect 0) [].

(** The block [if conn != nil { conn.Close(); conn = nil }] of lines
    53-56, 85-88 and 93-96. *)
Definition closeCurrent (conn : option handle) : option handle * list event :=
  match conn with
  | Some c => (None, [EvConnClose c; EvConnStore None])
  | None => (conn, [])
  end.

(** What the network does with one dial: the connection is established
    after [latency], or the dial is refused after [latency]. *)
Inductive dialOutcome :=
| NetConnects (latency : Duration)
| NetRefuses (latency : Duration).

Definition dialLatency (o : dialOutcome) : Duration :=
  match o with NetConnects l => l | NetRefuses l => l end.

(** [net.DialTimeout(netw, addr, timeout)]: the connection when it is
    established within [timeout] and the error otherwise, with the time
    the call took. *)
Definition DialTimeout (o : dialOutcome) (timeout : Duration) (fresh : handle)
  : (handle + error) * Duration :=
  match o with
  | NetConnects l =>
      if (l <=? timeout)%Z then (inl fresh, l) else (inr ErrDialTimeout, timeout)
  | NetRefuses l =>
      if (l <=? timeout)%Z then (inr ErrDial, l) else (inr ErrDialTimeout, timeout)
  end.

(** Lines 50-63, the transport's [Dial] hook: what it returns, the new
    value of [conn], the time spent and the events.  The lock is held
    from the first line to the return, over the dial itself. *)
Definition Dial (o : dialOutcome) (conn : option handle) (fresh : handle)
  : (handle + error) * option handle * Duration * list event :=
  let '(conn, closing) := closeCurrent conn in
  let '(res, elapsed) := DialTimeout o (5 * Second)%Z fresh in
  match res with
  | inr err =>
      (inr err, conn, elapsed,
       [EvLock] ++ closing ++ [EvDialTimeout (5 * Second)%Z None] ++ [EvUnlock])
  | inl netc =>
      (inl netc, Some netc, elapsed,
       [EvLock] ++ closing
       ++ [EvDialTimeout (5 * Second)%Z (Some netc); EvConnStore (Some netc)]
       ++ [EvUnlock])
  end.

(** What [client.Do] returns once the connection is dialed: an error,
    or a response with a status code; [body] is what a scanner can read
    of the response body. *)
Inductive roundTrip :=
| RTFails
| RTResponds (code : Z) (body : string).

(** One step of the session: of the environment (the clock, the
    context, the consumer) or of one of the two goroutines, with what
    the network answers.  A goroutine's step runs from one point where
    it can wait (a select, the lock, the network, the channel) to the
    next; the schedule chooses the order of the steps and what the
    network answers, so a read may fail or deliver at any time. *)
Inductive label :=
| Tick (d : Duration)           (* time passes *)
| Cancel                        (* ctx is cancelled or times out *)
| RecyclerDone                  (* recycler: case <-ctx.Done() *)
| RecyclerTimer                 (* recycler: case <-time.After(2 * time.Minute) *)
| PumpSelect                    (* pump: the select of line 105 *)
| PumpDial (o : dialOutcome)    (* pump: lines 109-120, up to the Dial hook *)
| PumpResponse (rt : roundTrip) (* pump: client.Do returns, lines 120-133 *)
| PumpDecode (f : frame)        (* pump: decoder.Decode returns, lines 137-141 *)
| ConsumerRecv.                 (* the consumer receives from the channel *)

(** [conn.Close()] has been called on [c]. *)
Definition closedIn (tr : list event) (c : handle) : bool :=
  existsb (fun e => match e with EvConnClose c' => Nat.eqb c c' | _ => false end) tr.

(** The pump moves to [p] and the events [evs] happen. *)
Definition pumpTo (p : pumpState) (evs : list event) (s : Session) : Session :=
  mkSession (now s) (ctxDone s) (conn s) (dialed s) (tweetsChan s) (chanCloses s)
            p (recycler s) (trace s ++ evs).

(** Lines 84-89 and 92-97: the recycler closes the current connection
    under the lock and goes on as [next]. *)
Definition recyclerClose (next : recyclerState) (s : Session) : Session :=
  let '(c, closing) := closeCurrent (conn s) in
  mkSession (now s) (ctxDone s) c (dialed s) (tweetsChan s) (chanCloses s)
            (pump s) next (trace s ++ [EvLock] ++ closing ++ [EvUnlock]).

(** Lines 81-99, the recycler goroutine.  The select takes a case that
    is ready: [ctx.Done()] once the context is done, the timer once two
    minutes have passed since [time.After] was called. *)
Definition recyclerStep (l : label) (s : Session) : option Session :=
  match recycler s with
  | RExit => None
  | RSelect armed =>
      match l with
      | RecyclerDone =>
          if ctxDone s then Some (recyclerClose RExit s) else None
      | RecyclerTimer =>
          if (armed + 2 * Minute <=? now s)%Z
          then Some (recyclerClose (RSelect (now s)) s) else None
      | _ => None
      end
  end.

(** Lines 103-146, the pump goroutine.  [http.NewRequest] cannot fail
    on the constant method and URL, so lines 113-116 have no step; the
    send of line 142 completes when the consumer receives. *)
Definition pumpStep (l : label) (s : Session) : option Session :=
  match pump s, l with
  | PSelect, PumpSelect =>
      if ctxDone s then
        Some (mkSession (now s) (ctxDone s) (conn s) (dialed s) (tweetsChan s)
                        (S (chanCloses s)) PExit (recycler s) (trace s ++ [EvChanClose]))
      else Some (pumpTo PRequest [] s)
  | PRequest, PumpDial o =>
      if (0 <=? dialLatency o)%Z then
        let '(res, conn', elapsed, evs) := Dial o (conn s) (dialed s) in
        match res with
        | inl c =>
            Some (mkSession (now s + elapsed) (ctxDone s) conn' (S (dialed s))
                            (tweetsChan s) (chanCloses s) (PAwait c) (recycler s)
                            (trace s ++ [EvDo filterRequest] ++ evs))
        | inr err =>
            Some (mkSession (now s + elapsed) (ctxDone s) conn' (dialed s)
                            (tweetsChan s) (chanCloses s) PSelect (recycler s)
                            (trace s ++ [EvDo filterRequest] ++ evs ++ [EvLogError err]))
        end
      else None
  | PAwait c, PumpResponse rt =>
      match rt with
      | RTFails => Some (pumpTo PSelect [EvLogError ErrRoundTrip] s)
      | RTResponds code body =>
          if negb (code =? StatusOK)%Z
          then Some (pumpTo PSelect [EvLogLine (scanText body); EvLogStatus code] s)
          else Some (pumpTo (PDecode c) [] s)
      end
  | PDecode c, PumpDecode f =>
      let '(t, ok) := Decode f zeroTweet in
      if ok then
        Some (pumpTo (PSend c (mkTweet (Text t) (foundTerms (Text t) terms))) [] s)
      else Some (pumpTo PSelect [EvBodyClose c] s)
  | PSend c t, ConsumerRecv =>
      Some (mkSession (now s) (ctxDone s) (conn s) (dialed s) (tweetsChan s ++ [t])
                      (chanCloses s) (PDecode c) (recycler s) (trace s ++ [EvSend t]))
  | _, _ => None
  end.

(** One step of the session; [None] when the step cannot happen in
    this state. *)
Definition step (l : label) (s : Session) : option Session :=
  match l with
  | Tick d =>
      if (0 <=? d)%Z then
        Some (mkSession (now s + d) (ctxDone s) (conn s) (dialed s) (tweetsChan s)
                        (chanCloses s) (pump s) (recycler s) (trace s))
      else None
  | Cancel =>
      Some (mkSession (now s) true (conn s) (dialed s) (tweetsChan s)
                      (chanCloses s) (pump s) (recycler s) (trace s))
  | RecyclerDone | RecyclerTimer => recyclerStep l s
  | PumpSelect | PumpDial _ | PumpResponse _ | PumpDecode _ | ConsumerRecv => pumpStep l s
  end.

(** A schedule, run from a state. *)
Fixpoint run (ls : list label) (s : Session) : option Session :=
  match ls with
  | [] => Some s
  | l :: ls' =>
      match step l s with
      | Some s' => run ls' s'
      | None => None
      end
  end.

(* ================================================================== *)
(** * Vocabulary of the statements *)
(* ================================================================== *)

(** A term matches a text when its lower-cased form occurs as a
    substring of the lower-cased text. *)
Definition Matches (text term : string) : Prop :=
  Substring (ToLower term) (ToLower text).

(** A JSON object, by its members, as [Decode] reads it into a fresh
    [Tweet]: the tweet, and whether the call returns no error. *)
Definition decoded (members : list (string * json)) : Tweet :=
  fst (Decode (FValue (JObject members)) zeroTweet).

Definition decodable (members : list (string * json)) : bool :=
  snd (Decode (FValue (JObject members)) zeroTweet).

(** The record line 141 makes of it. *)
Definition annotated (members : list (string * json)) : Tweet :=
  mkTweet (Text (decoded members)) (foundTerms (Text (decoded members)) terms).

(** No key of the object selects the field. *)
Definition lacksField (field : string) (members : list (string * json)) : bool :=
  forallb (fun kv => negb (keyIs field (fst kv))) members.

(** The JSON values a [string] takes: a string, or null. *)
Definition isStringOrNull (v : json) : bool :=
  match v with
  | JString _ | JNull => true
  | _ => false
  end.

(** The JSON values a [[]string] takes: null, or an array of strings
    and nulls. *)
Definition isStringArrayOrNull (v : json) : bool :=
  match v with
  | JNull => true
  | JArray elems => forallb isStringOrNull elems
  | _ => false
  end.

(** Every value under a key that selects [Terms] is null or an array
    of strings and nulls. *)
Definition termsFieldOk (members : list (string * json)) : bool :=
  forallb (fun kv => negb (keyIs "Terms" (fst kv)) || isStringArrayOrNull (snd kv))
          members.

(** Every member that selects a field of [Tweet] has a value the
    field takes. *)
Definition wellTyped (members : list (string * json)) : bool :=
  forallb (fun kv =>
             if keyIs "Text" (fst kv) then isStringOrNull (snd kv)
             else if keyIs "Terms" (fst kv) then isStringArrayOrNull (snd kv)
             else true)
          members.

(** The body delivers the objects one by one and the consumer receives
    each record. *)
Definition deliver (objs : list (list (string * json))) : list label :=
  flat_map (fun m => [PumpDecode (FValue (JObject m)); ConsumerRecv]) objs.

(** One iteration of the pump's loop on a network that connects at
    once: the select, the request and the dial, the answer. *)
Definition attempt (rt : roundTrip) : list label :=
  [PumpSelect; PumpDial (NetConnects 0%Z); PumpResponse rt].

(** The requests handed to [client.Do], in order. *)
Definition requests (tr : list event) : list Request :=
  flat_map (fun e => match e with EvDo req => [req] | _ => [] end) tr.

(** What was logged, in order. *)
Definition logged (tr : list event) : list event :=
  filter (fun e => match e with
                   | EvLogError _ | EvLogLine _ | EvLogStatus _ => true
                   | _ => false
                   end) tr.

(** The registry as the trace shows it: whether [connLock] is held,
    the handle in [conn], and the handles [conn.Close()] was called on. *)
Record registry := mkRegistry {
  held : bool;
  slot : option handle;
  released : list handle
}.

(** The discipline of the registry, event by event: [conn] is read,
    closed and written only while the lock is held; only the current
    handle is closed; the slot is cleared only once its handle is
    closed; the dial and the store of a new handle find the slot empty. *)
Definition replayEvent (e : event) (v : registry) : option registry :=
  match e with
  | EvLock =>
      if held v then None else Some (mkRegistry true (slot v) (released v))
  | EvUnlock =>
      if held v then Some (mkRegistry false (slot v) (released v)) else None
  | EvConnClose c =>
      match slot v with
      | Some c' =>
          if held v && Nat.eqb c c'
          then Some (mkRegistry true (slot v) (c :: released v)) else None
      | None => None
      end
  | EvConnStore None =>
      match slot v with
      | Some c' =>
          if held v && existsb (Nat.eqb c') (released v)
          then Some (mkRegistry true None (released v)) else None
      | None => if held v then Some v else None
      end
  | EvConnStore (Some c) =>
      match slot v with
      | Some _ => None
      | None => if held v then Some (mkRegistry true (Some c) (released v)) else None
      end
  | EvDialTimeout _ _ =>
      match slot v with
      | Some _ => None
      | None => if held v then Some v else None
      end
  | _ => Some v
  end.

Fixpoint replay (tr : list event) (v : registry) : option registry :=
  match tr with
  | [] => Some v
  | e :: tr' =>
      match replayEvent e v with
      | Some v' => replay tr' v'
      | None => None
      end
  end.

(** The frame ends the decode loop: [Decode] returns an error on it. *)
Definition endsStream (l : label) : bool :=
  match l with
  | PumpDecode f => negb (snd (Decode f zeroTweet))
  | _ => false
  end.

(** The pump passes its select, the context is cancelled, the recycler
    takes [ctx.Done()] and returns, and only then the pump dials; the
    stream then carries [n] objects [{}]. *)
Definition raceSchedule (n : nat) : list label :=
  [PumpSelect; Cancel; RecyclerDone;
   PumpDial (NetConnects 0%Z); PumpResponse (RTResponds StatusOK "")]
  ++ deliver (repeat [] n).

(** The session after the consumer has received the records [ts] from
    the decode loop on [c]. *)
Definition delivered (s : Session) (c : handle) (ts : list Tweet) : Session :=
  mkSession (now s) (ctxDone s) (conn s) (dialed s) (tweetsChan s ++ ts)
            (chanCloses s) (PDecode c) (recycler s) (trace s ++ map EvSend ts).

(** What lines 109-120 and the Dial hook do on a dial that connects:
    the request goes to [client.Do], the hook closes the handle left in
    [conn] and stores the new one, all of it under the lock. *)
Definition dialEvents (conn : option handle) (fresh : handle) : list event :=
  [EvDo filterRequest; EvLock] ++ snd (closeCurrent conn)
  ++ [EvDialTimeout (5 * Second)%Z (Some fresh); EvConnStore (Some fresh); EvUnlock].

(** The session after one [attempt] from [s]: a new connection is
    registered, the pump stands at [p], and [evs] follow the dial. *)
Definition connected (s : Session) (p : pumpState) (evs : list event) : Session :=
  mkSession (now s) (ctxDone s) (Some (dialed s)) (S (dialed s)) (tweetsChan s)
            (chanCloses s) p (recycler s)
            (trace s ++ dialEvents (conn s) (dialed s) ++ evs).

(** Where the pump goes on the answer of [client.Do], and what it logs. *)
Definition answered (fresh : handle) (rt : roundTrip) : pumpState * list event :=
  match rt with
  | RTFails => (PSelect, [EvLogError ErrRoundTrip])
  | RTResponds code body =>
      if (code =? StatusOK)%Z then (PDecode fresh, [])
      else (PSelect, [EvLogLine (scanText body); EvLogStatus code])
  end.

(** The schedule of one failed attempt per status and body of [bad]. *)
Definition retries (bad : list (Z * string)) : list label :=
  flat_map (fun cb => attempt (RTResponds (fst cb) (snd cb))) bad.

(** What the pump logs for them. *)
Definition diagnostics (bad : list (Z * string)) : list event :=
  flat_map (fun cb => [EvLogLine (scanText (snd cb)); EvLogStatus (fst cb)]) bad.

(** The registry before anything happened. *)
Definition registry0 : registry := mkRegistry false None [].

(** The view [v] of the registry agrees with the session: the lock is
    free between steps, the slot is [conn], the handle in [conn] is one
    that was dialed and not closed, and every other handle ever dialed
    has been closed. *)
Definition registryOk (s : Session) (v : registry) : Prop :=
  held v = false
  /\ slot v = conn s
  /\ (forall c, conn s = Some c -> c < dialed s /\ ~ In c (released v))
  /\ (forall c, In c (released v) -> c < dialed s)
  /\ (forall c, c < dialed s -> conn s = Some c \/ In c (released v)).




(** Every record on the channel, and the record the pump is about to
    send, carries the terms found in its own text. *)
Definition allAnnotated (s : Session) : Prop :=
  Forall (fun t => Terms t = foundTerms (Text t) terms) (tweetsChan s)
  /\ (forall c t, pump s = PSend c t -> Terms t = foundTerms (Text t) terms).

(** The pump is in the decode loop on [c], nothing has closed [c], the
    channel is open and the recycler has returned. *)
Definition stranded (c : handle) (s : Session) : Prop :=
  recycler s = RExit
  /\ (pump s = PDecode c \/ exists t, pump s = PSend c t)
  /\ chanCloses s = 0
  /\ closedIn (trace s) c = false.

(** The channel has been closed once when the pump has returned, and
    not at all before. *)
Definition closedOnExit (s : Session) : Prop :=
  (pump s = PExit /\ chanCloses s = 1) \/ (pump s <> PExit /\ chanCloses s = 0).

(** Every byte of the string satisfies [p]. *)
Fixpoint allBytes (p : ascii -> bool) (s : string) : bool :=
  match s with
  | EmptyString => true
  | String c s' => p c && allBytes p s'
  end.

(** The bytes [url.QueryEscape] lets through or writes: letters,
    digits, [-], [_], [.], [~], the [+] of a space and the [%] of an
    escape. *)
Definition escapedByte (c : ascii) : bool :=
  negb (shouldEscape c) || (byte_val c =? 43)%N || (byte_val c =? 37)%N.

(** The byte separates or splits a form field: [&] or [=]. *)
Definition formDelimiter (c : ascii) : bool :=
  (byte_val c =? 38)%N || (byte_val c =? 61)%N.


(** The handles [conn.Close()] was called on, in order. *)
Definition closes (tr : list event) : list handle :=
  flat_map (fun e => match e with EvConnClose c => [c] | _ => [] end) tr.

(** The connection the pump works on, if it has one. *)
Definition pumpHandle (p : pumpState) : option handle :=
  match p with
  | PAwait c | PDecode c | PSend c _ => Some c
  | PSelect | PRequest | PExit => None
  end.

(** The pump's connection and the handle in [conn] are the connection
    dialed last. *)
Definition latestDialed (s : Session) : Prop :=
  (forall c, pumpHandle (pump s) = Some c -> S c = dialed s)
  /\ (forall c, conn s = Some c -> S c = dialed s).

(** The recycler's timer was started at or after [a0] and not in the
    future, and the clock has not run backwards past [a0]. *)
Definition armedSince (a0 : Z) (s : Session) : Prop :=
  (a0 <= now s)%Z
  /\ (forall a, recycler s = RSelect a -> (a0 <= a <= now s)%Z).

(** What happens when the context is cancelled while the pump decodes
    and the recycler still runs: the recycler takes [ctx.Done()], the
    read on the closed connection fails, the pump comes to its select. *)
Definition cancelWhileDecoding : list label :=
  [Cancel; RecyclerDone; PumpDecode FReadError; PumpSelect].

(** The steps of the environment that no goroutine takes part in. *)
Definition idleLabel (l : label) : bool :=
  match l with
  | Tick _ | Cancel => true
  | _ => false
  end.

(** The members of an object that select a field of [Tweet], and
    those that select [Text]. *)
Definition knownMembers (members : list (string * json)) : list (string * json) :=
  filter (fun kv => keyIs "Text" (fst kv) || keyIs "Terms" (fst kv)) members.

Definition textMembers (members : list (string * json)) : list (string * json) :=
  filter (fun kv => keyIs "Text" (fst kv)) members.

(** The last string among the values, or [text] when there is none. *)
Definition lastString (text : string) (members : list (string * json)) : string :=
  fold_left (fun acc kv => match snd kv with JString s => s | _ => acc end) members text.

(** The value of the hexadecimal digit [upperhex] writes. *)
Definition unhex (c : ascii) : N :=
  if (byte_val c <? 58)%N then (byte_val c - 48)%N else (byte_val c - 55)%N.

(** Reading an escaped string back: [+] is a space, [%XX] the byte
    [XX], any other byte itself.  It serves to show that
    [url.QueryEscape] loses nothing. *)
Fixpoint unescape (s : string) : string :=
  match s with
  | EmptyString => EmptyString
  | String c s1 =>
      if (byte_val c =? 43)%N then String " " (unescape s1)
      else if (byte_val c =? 37)%N then
        match s1 with
        | String h (String l s3) =>
            String (ascii_of_N (16 * unhex h + unhex l)) (unescape s3)
        | _ => EmptyString
        end
      else String c (unescape s1)
  end.

(** The byte is neither a line feed nor a carriage return. *)
Definition inLine (c : ascii) : bool :=
  negb ((byte_val c =? 10)%N || (byte_val c =? 13)%N).

(** The records sent on the channel, in order. *)
Definition sends (tr : list event) : list Tweet :=
  flat_map (fun e => match e with EvSend t => [t] | _ => [] end) tr.

(** The receives of a schedule. *)
Definition countRecvs (ls : list label) : nat :=
  List.length (filter (fun l => match l with ConsumerRecv => true | _ => false end) ls).

(** The record a step hands to the consumer. *)
Definition received (l : label) (s : Session) : list Tweet :=
  match l, pump s with
  | ConsumerRecv, PSend _ t => [t]
  | _, _ => []
  end.

End Run.

End Twitterfeed.

(* ================================================================== *)
(** * Tactics *)
(* ================================================================== *)

(** Case analysis on one step: every branch of [step] that returns a
    state, with the tests it took as hypotheses. *)
Ltac step_cases H :=
  unfold step, pumpStep, recyclerStep, recyclerClose, pumpTo, Dial, DialTimeout,
    closeCurrent, Decode in H;
  repeat match type of H with
         | context [match ?x with _ => _ end] =>
             match x with
             | context [match _ with _ => _ end] => fail 1
             | _ => destruct x eqn:?
             end
         end;
  try discriminate H; try (injection H as <-).

(** What the registry invariant says about the handles at hand. *)
Ltac registry_facts Hc Hrel Hall :=
  try (pose proof (Hc _ eq_refl) as [? ?]);
  intros;
  repeat match goal with
         | H : Some _ = Some _ |- _ => injection H as H; subst
         | H : None = Some _ |- _ => discriminate H
         | H : In _ (_ :: _) |- _ => destruct H as [H|H]; [subst|]
         | H : _ = _ \/ In _ _ |- _ => destruct H as [H|H]; [subst|]
         end;
  try match goal with
      | H : conn _ = Some _ |- _ => destruct (Hc _ H)
      end;
  try match goal with
      | H : In _ _ |- _ => pose proof (Hrel _ H)
      end.

(* ================================================================== *)
(** * Concrete sessions *)
(* ================================================================== *)

(** A reader, a signer and a lower-casing of non-ASCII strings to run
    the session on. *)
Definition exampleReader : TweetReader :=
  NewTweetReader "consumerKey" "consumerSecret" "accessToken" "accessSecret".

Definition exampleSigner (client token : Credentials) (method url : string) (f : Values)
  : string := "OAuth".

Definition exampleLower (s : string) : string := s.

Definition exampleEOF (body : string) : bool := true.

Definition exampleTerms : list string := ["monkey"; "banana"].

Definition exampleRun (terms : list string) (ls : list label) (s : Session)
  : option Session :=
  run exampleLower exampleEOF exampleSigner exampleReader terms ls s.

(** The state a schedule leads to from [Run]. *)
Definition afterRun (terms : list string) (ls : list label) : Session :=
  match exampleRun terms ls Run with
  | Some s => s
  | None => Run
  end.

(** The pump has taken the default case of its select. *)
Definition requestingSession : Session :=
  Eval vm_compute in afterRun exampleTerms [PumpSelect].

(** The first connection answered 200 and the pump is decoding. *)
Definition decodingSession : Session :=
  Eval vm_compute in afterRun exampleTerms (attempt (RTResponds StatusOK "")).

(** A rate-limited answer, a healthy connection, a recycle after two
    minutes and the reconnect. *)
Definition recycledSchedule : list label :=
  attempt (RTResponds 420 "Easy there, Turbo") ++ attempt (RTResponds StatusOK "")
  ++ [Tick (2 * Minute)%Z; RecyclerTimer; PumpDecode FReadError; PumpSelect;
      PumpDial (NetConnects Second)].

Definition recycledSession : Session :=
  Eval vm_compute in afterRun exampleTerms recycledSchedule.

(** A session that watches an empty term and delivers one record. *)
Definition emptyTermSchedule : list label :=
  attempt (RTResponds StatusOK "") ++ deliver [[("text", JString "hello")]].

Definition emptyTermSession : Session :=
  Eval vm_compute in afterRun ["x"; ""] emptyTermSchedule.

(** A session that is cancelled while it decodes: the recycler closes
    the connection, the read fails, and the pump finds the context
    done. *)
Definition cancelledSchedule : list label :=
  attempt (RTResponds StatusOK "") ++ deliver [[("text", JString "banana")]]
  ++ [Cancel; RecyclerDone; PumpDecode FReadError; PumpSelect].

Definition cancelledSession : Session :=
  Eval vm_compute in afterRun exampleTerms cancelledSchedule.

(** Two minutes into a healthy connection the recycler's timer is due;
    then it has fired. *)
Definition recycleDueSchedule : list label :=
  attempt (RTResponds StatusOK "") ++ [Tick (2 * Minute)%Z].

Definition recycleDueSession : Session :=
  Eval vm_compute in afterRun exampleTerms recycleDueSchedule.

Definition justRecycledSession : Session :=
  Eval vm_compute in afterRun exampleTerms (recycleDueSchedule ++ [RecyclerTimer]).

(** After the cancelled session, time passes and the context is
    cancelled again. *)
Definition afterwardsSchedule : list label := [Tick Minute; Cancel].

Definition afterwardsSession : Session :=
  Eval vm_compute in afterRun exampleTerms (cancelledSchedule ++ afterwardsSchedule).

(* ================================================================== *)
(** * Properties *)
(* ================================================================== *)

Section Properties.

(** The parameters of a session, as in the definitions above. *)
Variable mapUnicodeLower : string -> string.
Variable eofWithLastBytes : string -> bool.
Variable AuthorizationHeader : Credentials -> Credentials -> string -> string -> Values -> string.
Variable r : TweetReader.
Variable terms : list string.

Local Abbreviation scanText := (scanText eofWithLastBytes).
Local Abbreviation answered := (answered eofWithLastBytes).
Local Abbreviation diagnostics := (diagnostics eofWithLastBytes).
Local Abbreviation ToLower := (ToLower mapUnicodeLower).
Local Abbreviation foundTerms := (foundTerms mapUnicodeLower).
Local Abbreviation Matches := (Matches mapUnicodeLower).
Local Abbreviation creds := (creds r).
Local Abbreviation authClient := (authClient r).
Local Abbreviation filterRequest := (filterRequest AuthorizationHeader r terms).
Local Abbreviation pumpStep := (pumpStep mapUnicodeLower eofWithLastBytes AuthorizationHeader r terms).
Local Abbreviation step := (step mapUnicodeLower eofWithLastBytes AuthorizationHeader r terms).
Local Abbreviation run := (run mapUnicodeLower eofWithLastBytes AuthorizationHeader r terms).
Local Abbreviation annotated := (annotated mapUnicodeLower terms).
Local Abbreviation dialEvents := (dialEvents AuthorizationHeader r terms).
Local Abbreviation connected := (connected AuthorizationHeader r terms).
Local Abbreviation allAnnotated := (allAnnotated mapUnicodeLower terms).

(* ================================================================== *)
(** * Substrings and the term matcher *)
(* ================================================================== *)

Lemma HasPrefix_spec (s prefix : string) :
  HasPrefix s prefix = true <-> exists post, s = (prefix ++ post)%string.
Proof.
  revert s; induction prefix as [|p prefix IH]; intros s; simpl.
  - split; [intros _; now exists s | reflexivity].
  - destruct s as [|c s]; simpl.
    + split; [discriminate | intros [post H]; discriminate].
    + rewrite andb_true_iff, Ascii.eqb_eq, IH. split.
      * intros [-> [post ->]]. now exists post.
      * intros [post H]. injection H as -> ->. split; [reflexivity | now exists post].
Qed.

Lemma Index_lower_bound (s substr : string) : (-1 <= Index s substr)%Z.
Proof.
  induction s as [|c s IH]; simpl.
  - destruct (HasPrefix "" substr); lia.
  - destruct (HasPrefix (String c s) substr); [lia|].
    destruct (Index s substr <? 0)%Z eqn:E; [lia|]. apply Z.ltb_ge in E. lia.
Qed.

(** [strings.Contains] decides the substring relation. *)
Lemma Contains_spec (s substr : string) :
  Contains s substr = true <-> Substring substr s.
Proof.
  unfold Contains, Substring. rewrite Z.leb_le.
  induction s as [|c s IH]; simpl.
  - destruct (HasPrefix "" substr) eqn:E.
    + apply HasPrefix_spec in E as [post E]. split; [intros _| lia].
      now exists ""%string, post.
    + split; [lia|]. intros [pre [post H]].
      destruct pre; simpl in H; [|discriminate].
      assert (HasPrefix "" substr = true) by (apply HasPrefix_spec; now exists post).
      congruence.
  - destruct (HasPrefix (String c s) substr) eqn:E.
    + apply HasPrefix_spec in E as [post E]. split; [intros _| lia].
      now exists ""%string, post.
    + destruct (Index s substr <? 0)%Z eqn:L.
      * apply Z.ltb_lt in L. split; [lia|]. intros [pre [post H]].
        destruct pre as [|d pre]; simpl in H.
        -- assert (HasPrefix (String c s) substr = true)
             by (apply HasPrefix_spec; now exists post).
           congruence.
        -- injection H as _ H. assert (0 <= Index s substr)%Z; [|lia].
           apply IH. now exists pre, post.
      * apply Z.ltb_ge in L. split; [intros _| lia].
        destruct IH as [IH _]. destruct (IH L) as [pre [post H]].
        exists (String c pre), post. simpl. now rewrite H.
Qed.

Lemma foundTerms_loop (low : string) (terms0 acc : list string) :
  fold_left
    (fun foundTerms term =>
       if Contains low (ToLower term) then foundTerms ++ [term] else foundTerms)
    terms0 acc
  = acc ++ filter (fun term => Contains low (ToLower term)) terms0.
Proof.
  revert acc; induction terms0 as [|t ts IH]; intros acc; simpl.
  - now rewrite app_nil_r.
  - rewrite IH. destruct (Contains low (ToLower t)); [|reflexivity].
    now rewrite <- app_assoc.
Qed.

(** The loop of [foundTerms] is a filter. *)
Lemma foundTerms_filter (text : string) (terms0 : list string) :
  foundTerms text terms0
  = filter (fun term => Contains (ToLower text) (ToLower term)) terms0.
Proof. unfold foundTerms. now rewrite foundTerms_loop. Qed.

Lemma Selects_filter {A : Type} (P : A -> Prop) (f : A -> bool) (l : list A) :
  (forall x, f x = true <-> P x) -> Selects P l (filter f l).
Proof.
  intros Hf. induction l as [|x l IH]; simpl; [constructor|].
  destruct (f x) eqn:E.
  - apply Selects_take; [now apply Hf | exact IH].
  - apply Selects_drop; [|exact IH]. intros HP. apply Hf in HP. congruence.
Qed.

Lemma Selects_In {A : Type} (P : A -> Prop) (l res : list A) :
  Selects P l res -> forall x, In x res <-> In x l /\ P x.
Proof.
  induction 1 as [|y l res Hy _ IH|y l res Hy _ IH]; intros x; simpl.
  - tauto.
  - rewrite IH. split.
    + intros [->|[H1 H2]]; auto.
    + intros [[->|H1] H2]; auto.
  - rewrite IH. split.
    + intros [H1 H2]; auto.
    + intros [[->|H1] H2]; [contradiction | auto].
Qed.

Lemma Selects_Subseq {A : Type} (P : A -> Prop) (l res : list A) :
  Selects P l res -> Subseq res l.
Proof. induction 1; now constructor. Qed.

Lemma Selects_count {A : Type} (dec : forall x y : A, {x = y} + {x <> y})
      (P : A -> Prop) (l res : list A) :
  Selects P l res ->
  forall x, (P x -> count_occ dec res x = count_occ dec l x)
            /\ (~ P x -> count_occ dec res x = 0).
Proof.
  induction 1 as [|y l res Hy _ IH|y l res Hy _ IH]; intros x; simpl.
  - split; reflexivity.
  - destruct (IH x) as [IH1 IH2]. destruct (dec y x) as [->|N].
    + split; [intros HP; now rewrite IH1 | intros HP; contradiction].
    + split; assumption.
  - destruct (IH x) as [IH1 IH2]. destruct (dec y x) as [->|N].
    + split; [intros HP; contradiction | assumption].
    + split; assumption.
Qed.

(** C3.  [foundTerms text terms] is exactly the input terms that match
    [text], a term matching when its lower-cased form occurs as a
    substring of the lower-cased text: the result selects the matching
    terms of the input, so a term is in it iff it is an input term that
    matches, the input order is kept, a matching term occurs as often as
    in the input and no other term occurs at all, and the result is
    empty when no term matches. *)
Theorem foundTerms_selects_matching (text : string) (terms0 : list string) :
  Selects (Matches text) terms0 (foundTerms text terms0)
  /\ (forall t, In t (foundTerms text terms0) <-> In t terms0 /\ Matches text t)
  /\ Subseq (foundTerms text terms0) terms0
  /\ (forall t, (Matches text t ->
                 count_occ string_dec (foundTerms text terms0) t
                 = count_occ string_dec terms0 t)
                /\ (~ Matches text t ->
                    count_occ string_dec (foundTerms text terms0) t = 0))
  /\ ((forall t, In t terms0 -> ~ Matches text t) -> foundTerms text terms0 = []).
Proof.
  assert (S : Selects (Matches text) terms0 (foundTerms text terms0)).
  { rewrite foundTerms_filter. apply Selects_filter.
    intros t. apply Contains_spec. }
  split; [exact S|]. split; [now apply Selects_In|].
  split; [now apply (Selects_Subseq (Matches text))|].
  split; [now apply Selects_count|].
  intros Hnone. destruct (foundTerms text terms0) as [|t ts] eqn:E; [reflexivity|].
  exfalso. destruct (proj1 (Selects_In _ _ _ S t) (or_introl eq_refl)) as [Hin Hm].
  exact (Hnone t Hin Hm).
Qed.

(* ================================================================== *)
(** * Runs of the session *)
(* ================================================================== *)

Lemma run_app (ls1 ls2 : list label) (s : Session) :
  run (ls1 ++ ls2) s
  = match run ls1 s with Some s' => run ls2 s' | None => None end.
Proof.
  revert s; induction ls1 as [|l ls1 IH]; intros s; simpl; [reflexivity|].
  destruct (step l s); [apply IH | reflexivity].
Qed.

(** Induction over the states a session reaches. *)
Lemma reachable_ind (P : Session -> Prop) :
  P Run ->
  (forall l s s', P s -> step l s = Some s' -> P s') ->
  forall ls s, run ls Run = Some s -> P s.
Proof.
  intros H0 Hstep ls. generalize Run H0.
  induction ls as [|l ls IH]; intros s0 P0 s; simpl.
  - now intros [= <-].
  - destruct (step l s0) as [s1|] eqn:E; [|discriminate].
    apply IH. eapply Hstep; eauto.
Qed.

Lemma closedIn_app (tr evs : list event) (c : handle) :
  closedIn (tr ++ evs) c = closedIn tr c || closedIn evs c.
Proof. unfold closedIn. apply existsb_app. Qed.

Lemma requests_app (tr evs : list event) :
  requests (tr ++ evs) = requests tr ++ requests evs.
Proof. unfold requests. apply flat_map_app. Qed.

Lemma logged_app (tr evs : list event) :
  logged (tr ++ evs) = logged tr ++ logged evs.
Proof. unfold logged. apply filter_app. Qed.

Lemma replay_app (tr evs : list event) (v : registry) :
  replay (tr ++ evs) v
  = match replay tr v with Some v' => replay evs v' | None => None end.
Proof.
  revert v; induction tr as [|e tr IH]; intros v; simpl; [reflexivity|].
  destruct (replayEvent e v); [apply IH | reflexivity].
Qed.

(* ================================================================== *)
(** * The decode loop *)
(* ================================================================== *)

Lemma step_decode_ok (s : Session) (c : handle) (m : list (string * json)) :
  pump s = PDecode c -> decodable m = true ->
  step (PumpDecode (FValue (JObject m))) s
  = Some (pumpTo (PSend c (annotated m)) [] s).
Proof.
  intros Hp Hd. unfold step, pumpStep. rewrite Hp.
  unfold decodable, annotated, decoded in *.
  destruct (Decode (FValue (JObject m)) zeroTweet) as [t ok]; simpl in *.
  now subst ok.
Qed.

Lemma step_decode_fails (s : Session) (c : handle) (f : frame) :
  pump s = PDecode c -> snd (Decode f zeroTweet) = false ->
  step (PumpDecode f) s = Some (pumpTo PSelect [EvBodyClose c] s).
Proof.
  intros Hp Hd. unfold step, pumpStep. rewrite Hp.
  destruct (Decode f zeroTweet) as [t ok]; simpl in *. now subst ok.
Qed.

Lemma delivered_nil (s : Session) (c : handle) :
  pump s = PDecode c -> delivered s c [] = s.
Proof.
  intros Hp. destruct s; unfold delivered; simpl in *.
  now rewrite !app_nil_r, Hp.
Qed.

(** The loop of lines 136-143 on a body of decodable objects, with a
    consumer that receives: one record per object. *)
Lemma deliver_run (objs : list (list (string * json))) (s : Session) (c : handle) :
  pump s = PDecode c ->
  Forall (fun m => decodable m = true) objs ->
  run (deliver objs) s = Some (delivered s c (map annotated objs)).
Proof.
  revert s. induction objs as [|m objs IH]; intros s Hp Hall.
  - simpl. now rewrite delivered_nil.
  - inversion Hall as [|? ? Hm Hrest]; subst.
    unfold deliver; cbn [flat_map app]; fold (deliver objs). cbn [run].
    rewrite (step_decode_ok s c m Hp Hm).
    unfold step at 1; cbn [pumpStep pumpTo pump].
    rewrite IH; simpl; auto.
    unfold delivered; simpl. now rewrite !app_nil_r, <- !app_assoc.
Qed.

Lemma storeElem_ok (v : json) : snd (storeElem v) = isStringOrNull v.
Proof. now destruct v. Qed.

Lemma storeText_ok (v : json) (t : Tweet) :
  snd (storeText v t) = isStringOrNull v.
Proof. now destruct v. Qed.

Lemma storeTerms_snd (v : json) (t : Tweet) :
  snd (storeTerms v t) = isStringArrayOrNull v.
Proof.
  destruct v; try reflexivity. simpl.
  induction elems as [|e elems IH]; simpl; [reflexivity|].
  now rewrite storeElem_ok, IH.
Qed.

Lemma storeTerms_ok (v : json) (t : Tweet) :
  isStringArrayOrNull v = true ->
  exists ts, storeTerms v t = (mkTweet (Text t) ts, true).
Proof.
  intros H. pose proof (storeTerms_snd v t) as E. rewrite H in E.
  destruct v; simpl in *; try discriminate.
  - now exists [].
  - rewrite E. eauto.
Qed.

Lemma object_snd (members : list (string * json)) (t : Tweet) :
  snd (object members t) = wellTyped members.
Proof.
  revert t. induction members as [|[k v] rest IH]; intros t; [reflexivity|].
  unfold wellTyped. cbn [object forallb fst snd]. fold (wellTyped rest).
  destruct (keyIs "Text" k).
  - destruct (storeText v t) as [t1 ok1] eqn:E1.
    pose proof (storeText_ok v t) as H1. rewrite E1 in H1. cbn [snd] in H1.
    specialize (IH t1). destruct (object rest t1) as [t2 ok2]. cbn [snd] in *.
    now subst.
  - destruct (keyIs "Terms" k).
    + destruct (storeTerms v t) as [t1 ok1] eqn:E1.
      pose proof (storeTerms_snd v t) as H1. rewrite E1 in H1. cbn [snd] in H1.
      specialize (IH t1). destruct (object rest t1) as [t2 ok2]. cbn [snd] in *.
      now subst.
    + specialize (IH t). destruct (object rest t) as [t2 ok2]. cbn [snd] in *.
      now subst.
Qed.

(** [Decode] returns no error on an object exactly when every member
    that selects a field has a value of the field's type. *)
Lemma decodable_wellTyped (members : list (string * json)) :
  decodable members = wellTyped members.
Proof. unfold decodable. cbn [Decode Unmarshal]. apply object_snd. Qed.

Lemma wellTyped_decodable (objs : list (list (string * json))) :
  Forall (fun m => wellTyped m = true) objs ->
  Forall (fun m => decodable m = true) objs.
Proof.
  intros H. eapply Forall_impl; [|exact H]. intros m Hm.
  now rewrite decodable_wellTyped.
Qed.

Lemma annotated_Terms (m : list (string * json)) :
  Terms (annotated m) = foundTerms (Text (annotated m)) terms.
Proof. reflexivity. Qed.

(** C5 (as amended).  On a connection in the decode loop, a body of N
    JSON objects that each decode into a [Tweet] without a type error
    (a text field is a string or null, a terms field is null or an
    array of strings and nulls), read by a consumer that receives,
    puts exactly N records on the channel, in order, each carrying the terms found in its own text;
    and on the first decode failure after them (a read error on a
    closed socket, malformed JSON, the end of the stream, a value of
    the wrong type) the loop closes the response body and the pump is
    back at its select, the channel still open. *)
Theorem decode_loop_delivers_decodable_objects
        (s : Session) (c : handle) (objs : list (list (string * json))) (f : frame) :
  pump s = PDecode c ->
  Forall (fun m => wellTyped m = true) objs ->
  snd (Decode f zeroTweet) = false ->
  exists s',
    run (deliver objs ++ [PumpDecode f]) s = Some s'
    /\ tweetsChan s' = tweetsChan s ++ map annotated objs
    /\ List.length (tweetsChan s') = List.length (tweetsChan s) + List.length objs
    /\ Forall (fun t => Terms t = foundTerms (Text t) terms) (map annotated objs)
    /\ trace s' = trace s ++ map EvSend (map annotated objs) ++ [EvBodyClose c]
    /\ pump s' = PSelect
    /\ chanCloses s' = chanCloses s.
Proof.
  intros Hp Hall Hf. apply wellTyped_decodable in Hall.
  exists (pumpTo PSelect [EvBodyClose c] (delivered s c (map annotated objs))).
  rewrite run_app, (deliver_run objs s c Hp Hall). cbn [run].
  rewrite step_decode_fails with (c := c); auto.
  simpl. repeat split; auto.
  - now rewrite List.length_app, List.length_map.
  - apply Forall_forall. intros t Ht. apply in_map_iff in Ht as [m [<- _]].
    apply annotated_Terms.
  - now rewrite <- app_assoc.
Qed.

Lemma object_lacking_text (members : list (string * json)) (t : Tweet) :
  lacksField "Text" members = true -> termsFieldOk members = true ->
  exists ts, object members t = (mkTweet (Text t) ts, true).
Proof.
  revert t. induction members as [|[k v] rest IH]; intros t Hl Ht.
  - exists (Terms t). now destruct t.
  - unfold lacksField, termsFieldOk in Hl, Ht. cbn [forallb fst snd] in Hl, Ht.
    apply andb_prop in Hl as [Hk Hl]. apply andb_prop in Ht as [Hv Ht].
    apply negb_true_iff in Hk. cbn [object]. rewrite Hk.
    destruct (keyIs "Terms" k) eqn:Ek.
    + simpl in Hv. destruct (storeTerms_ok v t Hv) as [ts ->].
      destruct (IH (mkTweet (Text t) ts) Hl Ht) as [ts' ->]. now exists ts'.
    + destruct (IH t Hl Ht) as [ts' ->]. now exists ts'.
Qed.

(** C9 (as amended).  A well-formed JSON object with no text field
    whose terms field, if it has one, is null or an array of strings
    and nulls, decodes without error into a record with empty text;
    the pump annotates it against the watch terms and sends it: the
    consumer receives a record with empty text and the terms found in
    the empty text, and the loop goes on decoding. *)
Theorem object_without_text_is_delivered
        (s : Session) (c : handle) (m : list (string * json)) :
  pump s = PDecode c ->
  lacksField "Text" m = true -> termsFieldOk m = true ->
  snd (Decode (FValue (JObject m)) zeroTweet) = true
  /\ Text (fst (Decode (FValue (JObject m)) zeroTweet)) = ""
  /\ run [PumpDecode (FValue (JObject m)); ConsumerRecv] s
     = Some (delivered s c [mkTweet "" (foundTerms "" terms)]).
Proof.
  intros Hp Hl Ht.
  destruct (object_lacking_text m zeroTweet Hl Ht) as [ts E].
  assert (Hd : decodable m = true) by (unfold decodable; simpl; now rewrite E).
  assert (Ha : annotated m = mkTweet "" (foundTerms "" terms))
    by (unfold annotated, decoded; simpl; now rewrite E).
  split; [exact Hd|]. split; [simpl; now rewrite E|].
  pose proof (deliver_run [m] s c Hp (Forall_cons _ Hd (Forall_nil _))) as R.
  unfold deliver in R. simpl flat_map in R. simpl map in R. now rewrite Ha in R.
Qed.

(* ================================================================== *)
(** * Connection attempts *)
(* ================================================================== *)

Lemma step_select_default (s : Session) :
  pump s = PSelect -> ctxDone s = false ->
  step PumpSelect s = Some (pumpTo PRequest [] s).
Proof. intros Hp Hd. unfold step, pumpStep. now rewrite Hp, Hd. Qed.

(** Lines 109-120 and 50-63 when the connection is established within
    the timeout. *)
Lemma step_dial_connects (s : Session) (l : Duration) :
  pump s = PRequest -> (0 <= l <= 5 * Second)%Z ->
  step (PumpDial (NetConnects l)) s
  = Some (mkSession (now s + l) (ctxDone s) (Some (dialed s)) (S (dialed s))
                    (tweetsChan s) (chanCloses s) (PAwait (dialed s)) (recycler s)
                    (trace s ++ dialEvents (conn s) (dialed s))).
Proof.
  intros Hp [H0 H5]. unfold step, pumpStep. rewrite Hp.
  unfold dialLatency, Dial, DialTimeout, dialEvents.
  apply Z.leb_le in H0, H5. rewrite H0.
  destruct (closeCurrent (conn s)) as [c1 closing] eqn:E. rewrite H5. cbn [snd].
  reflexivity.
Qed.

(** Lines 120-133: what the pump does with the answer of [client.Do]. *)
Lemma step_response (s : Session) (c : handle) (rt : roundTrip) :
  pump s = PAwait c ->
  step (PumpResponse rt) s
  = Some (pumpTo (fst (answered c rt)) (snd (answered c rt)) s).
Proof.
  intros Hp. unfold step, pumpStep. rewrite Hp.
  destruct rt as [|code body]; [reflexivity|]. unfold answered.
  now destruct (code =? StatusOK)%Z.
Qed.

(** One iteration of the pump's loop, lines 105-133, on a network that
    connects at once. *)
Lemma attempt_run (s : Session) (rt : roundTrip) :
  pump s = PSelect -> ctxDone s = false ->
  run (attempt rt) s
  = Some (connected s (fst (answered (dialed s) rt)) (snd (answered (dialed s) rt))).
Proof.
  intros Hp Hd. unfold attempt. cbn [run].
  rewrite (step_select_default s Hp Hd).
  rewrite step_dial_connects; [|reflexivity | unfold Second; cbn [pumpTo]; lia].
  rewrite step_response with (c := dialed s); cbn [pumpTo pump trace dialed conn];
    [| reflexivity].
  unfold connected, pumpTo; cbn [now ctxDone conn dialed tweetsChan chanCloses recycler trace].
  now rewrite app_nil_r, Z.add_0_r, <- app_assoc.
Qed.

Lemma requests_dialEvents (conn0 : option handle) (fresh : handle) :
  requests (dialEvents conn0 fresh) = [filterRequest].
Proof. destruct conn0; reflexivity. Qed.

Lemma logged_dialEvents (conn0 : option handle) (fresh : handle) :
  logged (dialEvents conn0 fresh) = [].
Proof. destruct conn0; reflexivity. Qed.

(** Any number of non-200 answers in a row: each is logged and the
    pump is back at its select, with nothing sent and no time spent. *)
Lemma retries_run (bad : list (Z * string)) (s : Session) :
  pump s = PSelect -> ctxDone s = false ->
  Forall (fun cb => fst cb <> StatusOK) bad ->
  exists s1,
    run (retries bad) s = Some s1
    /\ pump s1 = PSelect /\ ctxDone s1 = false
    /\ tweetsChan s1 = tweetsChan s /\ chanCloses s1 = chanCloses s
    /\ now s1 = now s /\ recycler s1 = recycler s
    /\ requests (trace s1) = requests (trace s) ++ repeat filterRequest (List.length bad)
    /\ logged (trace s1) = logged (trace s) ++ diagnostics bad.
Proof.
  revert s. induction bad as [|[code body] bad IH]; intros s Hp Hd Hall.
  - exists s. simpl. rewrite !app_nil_r. repeat split; auto.
  - inversion Hall as [|? ? Hcode Hrest]; subst. cbn [fst] in Hcode.
    unfold retries. cbn [flat_map fst snd]. fold (retries bad).
    rewrite run_app, (attempt_run s _ Hp Hd).
    assert (Ea : answered (dialed s) (RTResponds code body)
                 = (PSelect, [EvLogLine (scanText body); EvLogStatus code])).
    { unfold answered. apply Z.eqb_neq in Hcode. now rewrite Hcode. }
    rewrite Ea. cbn [fst snd].
    set (s0 := connected s PSelect [EvLogLine (scanText body); EvLogStatus code]).
    destruct (IH s0 eq_refl Hd Hrest)
      as [s1 [R [P1 [D1 [T1 [C1 [N1 [Rc1 [Q1 L1]]]]]]]]].
    exists s1. rewrite R. repeat split; auto.
    + rewrite Q1. unfold s0, connected; cbn [trace].
      rewrite !requests_app, requests_dialEvents. cbn. now rewrite <- app_assoc.
    + rewrite L1. unfold s0, connected; cbn [trace].
      rewrite !logged_app, logged_dialEvents. cbn. now rewrite <- app_assoc.
Qed.

(** C4.  A non-200 answer is logged with the first line of its body and
    its status, delivers nothing and leaves the pump at its select, the
    channel open; and however many such answers come in a row, each
    attempt is made at once (one request per attempt, the clock
    unmoved, no attempt the last), and a connection that then answers
    200 delivers its records. *)
Theorem non200_is_logged_and_retried
        (s : Session) (bad : list (Z * string)) (objs : list (list (string * json))) :
  pump s = PSelect -> ctxDone s = false ->
  Forall (fun cb => fst cb <> StatusOK) bad ->
  Forall (fun m => wellTyped m = true) objs ->
  (forall s0 c code body,
      pump s0 = PAwait c -> code <> StatusOK ->
      step (PumpResponse (RTResponds code body)) s0
      = Some (pumpTo PSelect [EvLogLine (scanText body); EvLogStatus code] s0))
  /\ exists s1 s2,
      run (retries bad) s = Some s1
      /\ pump s1 = PSelect
      /\ tweetsChan s1 = tweetsChan s
      /\ chanCloses s1 = chanCloses s
      /\ now s1 = now s
      /\ requests (trace s1) = requests (trace s) ++ repeat filterRequest (List.length bad)
      /\ logged (trace s1) = logged (trace s) ++ diagnostics bad
      /\ run (attempt (RTResponds StatusOK "") ++ deliver objs) s1 = Some s2
      /\ tweetsChan s2 = tweetsChan s ++ map annotated objs
      /\ chanCloses s2 = chanCloses s.
Proof.
  intros Hp Hd Hbad Hobjs. apply wellTyped_decodable in Hobjs. split.
  - intros s0 c code body Hp0 Hcode.
    rewrite (step_response s0 c _ Hp0). unfold answered.
    apply Z.eqb_neq in Hcode. now rewrite Hcode.
  - destruct (retries_run bad s Hp Hd Hbad)
      as [s1 [R [P1 [D1 [T1 [C1 [N1 [Rc1 [Q1 L1]]]]]]]]].
    set (s1' := connected s1 (PDecode (dialed s1)) []).
    exists s1, (delivered s1' (dialed s1) (map annotated objs)).
    repeat split; auto.
    + rewrite run_app, (attempt_run s1 _ P1 D1). cbn [answered fst snd].
      rewrite Z.eqb_refl. cbn [fst snd]. fold s1'.
      apply deliver_run; auto.
    + cbn. now rewrite T1.
Qed.

(* ================================================================== *)
(** * The filter request *)
(* ================================================================== *)

Lemma joinRest_concat (sep e : string) (rest : list string) :
  joinRest (e :: rest) sep = (sep ++ String.concat sep (e :: rest))%string.
Proof.
  revert e. induction rest as [|e' rest IH]; intros e.
  - simpl. induction e as [|x e IHe]; simpl.
    + induction sep; simpl; congruence.
    + f_equal. clear IHe. induction sep as [|y sep IHs]; simpl.
      * f_equal. induction e; simpl; congruence.
      * inversion IHs as [E]. now rewrite E.
  - cbn [joinRest String.concat]. cbn [joinRest] in IH. now rewrite IH.
Qed.

(** [strings.Join] puts the separator between the elements. *)
Lemma Join_concat (elems : list string) (sep : string) :
  Join elems sep = String.concat sep elems.
Proof.
  destruct elems as [|e [|e' rest]]; try reflexivity.
  unfold Join. now rewrite joinRest_concat.
Qed.

Lemma step_requests (l : label) (s s' : Session) :
  step l s = Some s' ->
  requests (trace s')
  = requests (trace s) ++ match l with PumpDial _ => [filterRequest] | _ => [] end.
Proof.
  intros H. step_cases H; cbn [trace]; rewrite ?requests_app; cbn;
    rewrite ?app_nil_r; reflexivity.
Qed.

(** C6.  Every connection attempt (every dial step of the pump, and no
    other step) hands exactly one request to [client.Do]: a POST to
    the fixed streaming URL whose body is the single form field
    [track] holding the watch terms joined by commas, with an
    Authorization header signed over this method, this URL and this
    form, the form content type, and a Content-Length that is the
    length of the encoded body. *)
Theorem every_attempt_posts_the_filter_request (l : label) (s s' : Session) :
  step l s = Some s' ->
  requests (trace s')
  = requests (trace s) ++ match l with PumpDial _ => [filterRequest] | _ => [] end
  /\ Method filterRequest = "POST"
  /\ URL filterRequest = "https://stream.twitter.com/1.1/statuses/filter.json"
  /\ Body filterRequest = ("track=" ++ QueryEscape (String.concat "," terms))%string
  /\ Body filterRequest = Encode [("track", [String.concat "," terms])]
  /\ HeaderGet (Headers filterRequest) "Authorization"
     = Some (AuthorizationHeader authClient creds (Method filterRequest)
               (URL filterRequest) [("track", [String.concat "," terms])])
  /\ HeaderGet (Headers filterRequest) "Content-Type"
     = Some "application/x-www-form-urlencoded"
  /\ HeaderGet (Headers filterRequest) "Content-Length"
     = Some (Itoa (len (Body filterRequest)))
  /\ ContentLength filterRequest = len (Body filterRequest)
  /\ List.length (Headers filterRequest) = 3.
Proof.
  intros H. split; [now apply step_requests|].
  unfold filterRequest, form. rewrite Join_concat.
  repeat split; reflexivity.
Qed.

(* ================================================================== *)
(** * The recycler *)
(* ================================================================== *)

Lemma recycler_exit_step (l : label) (s s' : Session) :
  recycler s = RExit -> step l s = Some s' -> recycler s' = RExit.
Proof.
  intros Hr H. step_cases H; cbn [recycler]; auto; congruence.
Qed.

Lemma recycler_exit_run (ls : list label) (s s' : Session) :
  recycler s = RExit -> run ls s = Some s' -> recycler s' = RExit.
Proof.
  revert s. induction ls as [|l ls IH]; intros s Hr; simpl.
  - now intros [= <-].
  - destruct (step l s) as [s1|] eqn:E; [|discriminate].
    apply IH. eapply recycler_exit_step; eauto.
Qed.

Lemma recycler_exit_disabled (l : label) (s : Session) :
  recycler s = RExit -> recyclerStep l s = None.
Proof. intros Hr. unfold recyclerStep. now rewrite Hr. Qed.

Lemma closes_app (tr evs : list event) : closes (tr ++ evs) = closes tr ++ closes evs.
Proof. unfold closes. apply flat_map_app. Qed.

(** A closed connection stays closed: the trace only grows. *)
Lemma closedIn_step (l : label) (s s' : Session) (c : handle) :
  step l s = Some s' -> closedIn (trace s) c = true -> closedIn (trace s') c = true.
Proof.
  intros H Hc. step_cases H; cbn [trace]; rewrite ?closedIn_app, ?Hc; reflexivity.
Qed.

Lemma closedIn_run (ls : list label) (s s' : Session) (c : handle) :
  run ls s = Some s' -> closedIn (trace s) c = true -> closedIn (trace s') c = true.
Proof.
  revert s. induction ls as [|l ls IH]; intros s; simpl.
  - now intros [= <-].
  - destruct (step l s) as [s1|] eqn:E; [|discriminate]. intros R Hc.
    apply (IH s1 R). eapply closedIn_step; eauto.
Qed.

(** What [recyclerClose] does and what it leaves alone. *)
Lemma recyclerClose_effect (next : recyclerState) (s : Session) :
  conn (recyclerClose next s) = None
  /\ recycler (recyclerClose next s) = next
  /\ trace (recyclerClose next s)
     = trace s ++ [EvLock] ++ snd (closeCurrent (conn s)) ++ [EvUnlock]
  /\ tweetsChan (recyclerClose next s) = tweetsChan s
  /\ chanCloses (recyclerClose next s) = chanCloses s
  /\ pump (recyclerClose next s) = pump s
  /\ ctxDone (recyclerClose next s) = ctxDone s
  /\ now (recyclerClose next s) = now s
  /\ dialed (recyclerClose next s) = dialed s.
Proof.
  unfold recyclerClose. destruct (conn s) as [c|] eqn:E; cbn; rewrite ?E; repeat split.
Qed.

(** C7.  The recycler takes its timer case exactly when two minutes
    have passed since it entered its select, and its cancellation case
    exactly when the context is done.  On the timer it closes the
    current handle under the lock, clears the slot and is back in its
    select with a new timer; on cancellation it does the same once and
    returns, after which no step of the recycler is ever possible
    again.  Neither step changes the channel, the count of its closes
    or the pump, and the only events are the lock, the close of the
    current handle and the clearing of the slot.  When a handle is
    registered, [conn.Close()] is called on it: the close of that
    handle is in the trace, between the lock and the unlock, and the
    handle is closed from then on; when none is registered, the step
    only takes and releases the lock. *)
Theorem recycler_closes_current_and_never_touches_channel (s : Session) :
  (2 * Minute = 120 * Second)%Z
  /\ (step RecyclerTimer s <> None
      <-> exists armed, recycler s = RSelect armed /\ (armed + 2 * Minute <= now s)%Z)
  /\ (step RecyclerDone s <> None
      <-> exists armed, recycler s = RSelect armed /\ ctxDone s = true)
  /\ (forall s', step RecyclerTimer s = Some s' ->
        s' = recyclerClose (RSelect (now s)) s /\ recycler s' = RSelect (now s))
  /\ (forall s', step RecyclerDone s = Some s' ->
        s' = recyclerClose RExit s /\ recycler s' = RExit
        /\ forall ls s'', run ls s' = Some s'' ->
             recycler s'' = RExit
             /\ step RecyclerTimer s'' = None /\ step RecyclerDone s'' = None)
  /\ (forall l s', (l = RecyclerTimer \/ l = RecyclerDone) -> step l s = Some s' ->
        conn s' = None
        /\ trace s' = trace s ++ [EvLock] ++ snd (closeCurrent (conn s)) ++ [EvUnlock]
        /\ List.length (snd (closeCurrent (conn s))) <= 2
        /\ (forall c, In (EvConnClose c) (snd (closeCurrent (conn s))) -> conn s = Some c)
        /\ tweetsChan s' = tweetsChan s
        /\ chanCloses s' = chanCloses s
        /\ pump s' = pump s
        /\ (forall c, conn s = Some c ->
              trace s' = trace s ++ [EvLock; EvConnClose c; EvConnStore None; EvUnlock]
              /\ closes (trace s') = closes (trace s) ++ [c]
              /\ closedIn (trace s') c = true
              /\ forall ls s'', run ls s' = Some s'' -> closedIn (trace s'') c = true)
        /\ (conn s = None ->
              trace s' = trace s ++ [EvLock; EvUnlock]
              /\ closes (trace s') = closes (trace s))).
Proof.
  split; [reflexivity|].
  split; [|split; [|split; [|split]]].
  - unfold step, recyclerStep. destruct (recycler s) as [armed|].
    + destruct (armed + 2 * Minute <=? now s)%Z eqn:E.
      * apply Z.leb_le in E. split; [intros _; now exists armed | discriminate].
      * apply Z.leb_gt in E. split; [congruence|]. intros [a [[= <-] Ha]]. lia.
    + split; [congruence | intros [a [Ha _]]; discriminate].
  - unfold step, recyclerStep. destruct (recycler s) as [armed|].
    + destruct (ctxDone s).
      * split; [intros _; now exists armed | discriminate].
      * split; [congruence | intros [a [_ Ha]]; discriminate].
    + split; [congruence | intros [a [Ha _]]; discriminate].
  - intros s' H. unfold step, recyclerStep in H.
    destruct (recycler s) as [armed|]; [|discriminate].
    destruct (armed + 2 * Minute <=? now s)%Z; [|discriminate].
    injection H as <-. split; [reflexivity | apply recyclerClose_effect].
  - intros s' H. unfold step, recyclerStep in H.
    destruct (recycler s) as [armed|]; [|discriminate].
    destruct (ctxDone s); [|discriminate].
    injection H as <-. split; [reflexivity|].
    split; [apply recyclerClose_effect|].
    intros ls s'' R.
    assert (Hx : recycler s'' = RExit).
    { apply (recycler_exit_run ls (recyclerClose RExit s)); auto.
      apply recyclerClose_effect. }
    split; [exact Hx|]. unfold step. now rewrite !recycler_exit_disabled.
  - intros l s' Hl H.
    assert (E : exists next, s' = recyclerClose next s).
    { unfold step, recyclerStep in H. destruct Hl as [-> | ->];
        destruct (recycler s) as [armed|]; try discriminate.
      - destruct (armed + 2 * Minute <=? now s)%Z; [|discriminate].
        injection H as <-. eauto.
      - destruct (ctxDone s); [|discriminate]. injection H as <-. eauto. }
    destruct E as [next ->].
    destruct (recyclerClose_effect next s) as [E1 [_ [E3 [E4 [E5 [E6 _]]]]]].
    split; [exact E1|]. split; [exact E3|].
    split; [destruct (conn s); simpl; lia|]. split.
    { intros c Hin. destruct (conn s) as [c0|]; simpl in Hin; [|contradiction].
      destruct Hin as [[= ->]|[Hin|[]]]; [reflexivity | discriminate]. }
    split; [exact E4|]. split; [exact E5|]. split; [exact E6|]. split.
    + intros c Hc. rewrite E3, Hc. cbn [closeCurrent snd app].
      assert (Hcl : closedIn (trace s ++ [EvLock; EvConnClose c; EvConnStore None; EvUnlock]) c
                    = true).
      { rewrite closedIn_app. cbn. rewrite Nat.eqb_refl. now rewrite orb_true_r. }
      split; [reflexivity|]. split; [rewrite closes_app; reflexivity|].
      split; [exact Hcl|].
      intros ls s'' R. apply (closedIn_run ls (recyclerClose next s) s'' c R).
      rewrite E3, Hc. exact Hcl.
    + intros Hc. rewrite E3, Hc. cbn [closeCurrent snd app].
      split; [reflexivity|]. rewrite closes_app. cbn. now rewrite app_nil_r.
Qed.

(* ================================================================== *)
(** * The dial timeout *)
(* ================================================================== *)

(** C10.  The Dial hook calls [net.DialTimeout] with five seconds: a
    connection that would take longer is given up after exactly five
    seconds; the dial fails, [conn] is left empty (the previous handle
    was closed before the dial), no new handle exists, the error is
    logged and the pump is back at its select, from where it dials
    again unless the context is done. *)
Theorem dial_gives_up_after_five_seconds (s : Session) (l : Duration) :
  pump s = PRequest -> (5 * Second < l)%Z ->
  exists s',
    step (PumpDial (NetConnects l)) s = Some s'
    /\ conn s' = None
    /\ dialed s' = dialed s
    /\ pump s' = PSelect
    /\ now s' = (now s + 5 * Second)%Z
    /\ (5 * Second = 5000000000)%Z
    /\ trace s'
       = trace s ++ [EvDo filterRequest; EvLock] ++ snd (closeCurrent (conn s))
         ++ [EvDialTimeout (5 * Second)%Z None; EvUnlock; EvLogError ErrDialTimeout]
    /\ tweetsChan s' = tweetsChan s
    /\ chanCloses s' = chanCloses s
    /\ (ctxDone s = false -> step PumpSelect s' = Some (pumpTo PRequest [] s')).
Proof.
  intros Hp Hl. unfold step at 1, pumpStep. rewrite Hp.
  unfold dialLatency, Dial, DialTimeout.
  assert (H0 : (0 <=? l)%Z = true) by (apply Z.leb_le; unfold Second in Hl; lia).
  assert (H5 : (l <=? 5 * Second)%Z = false) by (apply Z.leb_gt; lia).
  rewrite H0. destruct (closeCurrent (conn s)) as [c1 closing] eqn:E. rewrite H5.
  eexists. split; [reflexivity|]. cbn [conn dialed pump now trace tweetsChan chanCloses snd].
  assert (c1 = None) by (destruct (conn s); simpl in E; congruence). subst c1.
  repeat split; auto.
  - now rewrite <- !app_assoc.
  - intros Hd. unfold step, pumpStep. cbn [pump ctxDone]. now rewrite Hd.
Qed.

(* ================================================================== *)
(** * The connection registry *)
(* ================================================================== *)

Lemma registry_step (l : label) (s s' : Session) (v : registry) :
  replay (trace s) registry0 = Some v -> registryOk s v ->
  step l s = Some s' ->
  exists v', replay (trace s') registry0 = Some v' /\ registryOk s' v'.
Proof.
  intros Hr [Hh [Hs [Hc [Hrel Hall]]]] H.
  destruct v as [h sl rel]; cbn in Hh, Hs, Hc, Hrel, Hall; subst h sl.
  step_cases H; cbn [trace]; rewrite ?replay_app, ?Hr; cbn;
    repeat (rewrite ?Nat.eqb_refl; cbn);
    (eexists; split; [reflexivity|]); unfold registryOk; cbn;
    (split; [reflexivity|]); (split; [reflexivity|]);
    (split; [|split]); registry_facts Hc Hrel Hall;
    try (split; [lia|]); try lia; auto.
  all: try (intros Hin; registry_facts Hc Hrel Hall; lia).
  all: try (match goal with
            | Hlt : ?c < _ |- _ =>
                destruct (Nat.eq_dec c (dialed s)) as [->|Hne];
                [now left|];
                destruct (Hall c ltac:(lia)) as [E|E];
                [try discriminate E; try (injection E as <-) | ];
                simpl; auto
            end).
  all: try (match goal with
            | Hlt : ?c < dialed _ |- _ =>
                destruct (Hall c Hlt) as [E|E];
                [injection E as <-; right; left; reflexivity | right; right; exact E]
            end).
  all: try (match goal with
            | Hlt : ?c < S (dialed _) |- _ =>
                destruct (Nat.eq_dec c (dialed s)) as [->|Hne];
                [now left|];
                destruct (Hall c ltac:(lia)) as [E|E];
                [injection E as <-; right; left; reflexivity | right; right; exact E]
            end).
Qed.

Lemma registry_reachable (ls : list label) (s : Session) :
  run ls Run = Some s ->
  exists v, replay (trace s) registry0 = Some v /\ registryOk s v.
Proof.
  apply reachable_ind
    with (P := fun s => exists v, replay (trace s) registry0 = Some v /\ registryOk s v).
  - exists registry0. split; [reflexivity|].
    unfold registryOk; cbn. repeat split; intros; try discriminate; try contradiction; lia.
  - intros l s0 s1 [v [Hr Hok]] H. eapply registry_step; eauto.
Qed.




(* ================================================================== *)
(** * Records on the channel *)
(* ================================================================== *)

Lemma allAnnotated_step (l : label) (s s' : Session) :
  allAnnotated s -> step l s = Some s' -> allAnnotated s'.
Proof.
  intros [Ha Hp] H. unfold allAnnotated.
  step_cases H; cbn [tweetsChan pump]; split; auto; try discriminate;
    try (intros c' t' [= <- <-]; reflexivity);
    try (intros c' t' E; discriminate E).
  apply Forall_app. split; [exact Ha|]. constructor; [|constructor]. eapply Hp; eauto.
Qed.

Lemma allAnnotated_reachable (ls : list label) (s : Session) :
  run ls Run = Some s -> allAnnotated s.
Proof.
  apply reachable_ind with (P := allAnnotated).
  - split; [constructor | discriminate].
  - intros l s0 s1. apply allAnnotated_step.
Qed.

Lemma ToLower_empty : ToLower "" = "".
Proof. reflexivity. Qed.

Lemma Matches_empty (text : string) : Matches text "".
Proof. exists ""%string, (ToLower text). reflexivity. Qed.

Lemma foundTerms_count_empty (text : string) (terms0 : list string) :
  count_occ string_dec (foundTerms text terms0) ""
  = count_occ string_dec terms0 "".
Proof.
  assert (S : Selects (Matches text) terms0 (foundTerms text terms0)).
  { rewrite foundTerms_filter. apply Selects_filter. intros t. apply Contains_spec. }
  apply (Selects_count string_dec _ _ _ S ""). apply Matches_empty.
Qed.

(** C8.  An empty watch term matches every text: [foundTerms] returns
    the empty term as often as the input terms hold it, whatever the
    text; so every record a session puts on the channel carries every
    empty watch term. *)
Theorem empty_term_matches_every_text :
  (forall text terms0,
      count_occ string_dec (foundTerms text terms0) ""
      = count_occ string_dec terms0 "")
  /\ (forall text terms0, In "" terms0 -> In "" (foundTerms text terms0))
  /\ (forall ls s t,
         run ls Run = Some s -> In t (tweetsChan s) ->
         count_occ string_dec (Terms t) "" = count_occ string_dec terms ""
         /\ (In "" terms -> In "" (Terms t))).
Proof.
  split; [apply foundTerms_count_empty|].
  assert (Hin : forall text terms0, In "" terms0 -> In "" (foundTerms text terms0)).
  { intros text terms0 H. apply (count_occ_In string_dec).
    rewrite foundTerms_count_empty. now apply (count_occ_In string_dec). }
  split; [exact Hin|].
  intros ls s t Hreach Ht.
  destruct (allAnnotated_reachable ls s Hreach) as [Ha _].
  rewrite Forall_forall in Ha. rewrite (Ha t Ht).
  split; [apply foundTerms_count_empty | apply Hin].
Qed.

(* ================================================================== *)
(** * Cancellation *)
(* ================================================================== *)

Lemma stranded_step (c : handle) (l : label) (s s' : Session) :
  stranded c s -> step l s = Some s' -> endsStream l = false -> stranded c s'.
Proof.
  intros [Hr [Hp [Hc Hcl]]] H He. unfold stranded.
  unfold endsStream, Decode in He.
  step_cases H; cbn [recycler pump chanCloses trace];
    rewrite ?closedIn_app, ?Hcl; cbn;
    try discriminate;
    try (destruct Hp as [Hp|[t' Hp]]; discriminate Hp);
    try (repeat split; auto; fail).
  - destruct Hp as [[= ->]|[t' Hp]]; [|discriminate Hp].
    repeat split; eauto.
  - destruct Hp as [Hp|[t' [= -> ->]]]; [discriminate Hp|].
    repeat split; auto.
Qed.

Lemma stranded_run (c : handle) (ls : list label) (s s' : Session) :
  stranded c s -> run ls s = Some s' -> existsb endsStream ls = false ->
  stranded c s'.
Proof.
  revert s. induction ls as [|l ls IH]; intros s Hs; simpl.
  - now intros [= <-].
  - destruct (step l s) as [s1|] eqn:E; [|discriminate].
    intros R He. apply orb_false_elim in He as [He1 He2].
    apply (IH s1); auto. eapply stranded_step; eauto.
Qed.

Lemma race_prefix :
  run [PumpSelect; Cancel; RecyclerDone;
       PumpDial (NetConnects 0%Z); PumpResponse (RTResponds StatusOK "")] Run
  = Some (mkSession 0 true (Some 0) 1 [] 0 (PDecode 0) RExit
            ([EvLock; EvUnlock] ++ dialEvents None 0)).
Proof. reflexivity. Qed.

(** C1, on the schedule where the claim fails.  The pump passes its
    select, the context is cancelled, the recycler takes
    [ctx.Done()], finds no connection and returns, and the pump then
    dials.  From there on the context is done and yet every object the
    stream carries is sent on the channel: any number [n] of records
    after the cancellation.  Nothing closes the connection and nothing
    closes the channel for as long as the stream goes on: on every
    schedule that continues from this state without a failing decode,
    the channel stays open. *)
Theorem cancel_race_leaves_stream_running (n : nat) :
  exists s0 s,
    run [PumpSelect; Cancel; RecyclerDone] Run = Some s0
    /\ ctxDone s0 = true /\ recycler s0 = RExit /\ conn s0 = None
    /\ tweetsChan s0 = []
    /\ run (raceSchedule n) Run = Some s
    /\ ctxDone s = true /\ recycler s = RExit
    /\ pump s = PDecode 0 /\ conn s = Some 0
    /\ closedIn (trace s) 0 = false
    /\ chanCloses s = 0
    /\ tweetsChan s = repeat (mkTweet "" (foundTerms "" terms)) n
    /\ (forall ls s',
           run ls s = Some s' -> existsb endsStream ls = false ->
           chanCloses s' = 0 /\ closedIn (trace s') 0 = false
           /\ recycler s' = RExit).
Proof.
  eexists. eexists. split; [reflexivity|]. cbn [ctxDone recycler conn tweetsChan].
  do 4 (split; [reflexivity|]).
  unfold raceSchedule. rewrite run_app, race_prefix.
  assert (Hall : Forall (fun m => decodable m = true) (repeat [] n)).
  { apply Forall_forall. intros m Hm. apply repeat_spec in Hm. now subst. }
  rewrite deliver_run with (c := 0); [|reflexivity|exact Hall].
  split; [reflexivity|]. cbn [delivered ctxDone recycler pump conn chanCloses tweetsChan trace].
  assert (Hcl : closedIn (([EvLock; EvUnlock] ++ dialEvents None 0)
                          ++ map EvSend (map annotated (repeat [] n))) 0 = false).
  { rewrite closedIn_app. cbn. induction (map annotated (repeat [] n)); auto. }
  do 4 (split; [reflexivity|]). split; [exact Hcl|]. split; [reflexivity|].
  split; [now rewrite map_repeat|].
  intros ls s' R He.
  assert (St : stranded 0 s').
  { eapply stranded_run; [|exact R|exact He].
    unfold stranded; cbn. repeat split; auto. }
  destruct St as [Hr [_ [Hc Hx]]]. auto.
Qed.

Lemma closedOnExit_step (l : label) (s s' : Session) :
  closedOnExit s -> step l s = Some s' -> closedOnExit s'.
Proof.
  intros Hc H. unfold closedOnExit in *.
  step_cases H; cbn [pump chanCloses];
    destruct Hc as [[Hp Hn]|[Hp Hn]]; try congruence;
    try (right; split; [discriminate | assumption]);
    try (left; split; [reflexivity | congruence]);
    auto.
Qed.

(** Once the pump has returned, no step sends or closes. *)
Lemma exit_step (l : label) (s s' : Session) :
  pump s = PExit -> step l s = Some s' ->
  pump s' = PExit /\ tweetsChan s' = tweetsChan s /\ chanCloses s' = chanCloses s.
Proof.
  intros Hp H. step_cases H; cbn [pump tweetsChan chanCloses]; auto; congruence.
Qed.

Lemma exit_run (ls : list label) (s s' : Session) :
  pump s = PExit -> run ls s = Some s' ->
  pump s' = PExit /\ tweetsChan s' = tweetsChan s /\ chanCloses s' = chanCloses s.
Proof.
  revert s. induction ls as [|l ls IH]; intros s Hp; simpl.
  - intros [= <-]. auto.
  - destruct (step l s) as [s1|] eqn:E; [|discriminate]. intros R.
    destruct (exit_step l s s1 Hp E) as [P1 [T1 C1]].
    destruct (IH s1 P1 R) as [P2 [T2 C2]]. repeat split; congruence.
Qed.

(** The channel of a session is closed at most once, exactly when the
    pump has returned (the deferred close of line 103), and from then
    on nothing is received from it and it is not closed again. *)
Theorem channel_closed_once_on_exit (ls : list label) (s : Session) :
  run ls Run = Some s ->
  chanCloses s <= 1
  /\ (chanCloses s = 1 <-> pump s = PExit)
  /\ (pump s = PExit ->
      forall ls' s', run ls' s = Some s' ->
        pump s' = PExit /\ tweetsChan s' = tweetsChan s /\ chanCloses s' = 1).
Proof.
  intros Hreach.
  assert (Hc : closedOnExit s).
  { revert Hreach. apply reachable_ind with (P := closedOnExit).
    - right. split; [discriminate | reflexivity].
    - intros l s0 s1. apply closedOnExit_step. }
  destruct Hc as [[Hp Hn]|[Hp Hn]].
  - split; [lia|]. split; [tauto|]. intros _ ls' s' R.
    destruct (exit_run ls' s s' Hp R) as [P [T C]]. repeat split; congruence.
  - split; [lia|]. split; [split; intro; [lia | contradiction]|]. contradiction.
Qed.

(* ================================================================== *)
(** * More on the term matcher *)
(* ================================================================== *)

Lemma filter_idempotent {A : Type} (f : A -> bool) (l : list A) :
  filter f (filter f l) = filter f l.
Proof.
  induction l as [|x l IH]; simpl; [reflexivity|].
  destruct (f x) eqn:E; simpl; [rewrite E; now f_equal | exact IH].
Qed.

(** [foundTerms] composes: the terms found in a concatenation are
    the terms found in each part, in order; matching the result again
    changes nothing; and the result is never longer than the input.
    On no terms the result is empty. *)
Theorem foundTerms_composes (text : string) (terms1 terms2 : list string) :
  foundTerms text (terms1 ++ terms2) = foundTerms text terms1 ++ foundTerms text terms2
  /\ foundTerms text (foundTerms text terms1) = foundTerms text terms1
  /\ List.length (foundTerms text terms1) <= List.length terms1
  /\ foundTerms text [] = [].
Proof.
  rewrite !foundTerms_filter. split; [apply filter_app|].
  split; [apply filter_idempotent|]. split; [apply filter_length_le | reflexivity].
Qed.

Lemma string_length_append (a b : string) :
  String.length (a ++ b) = String.length a + String.length b.
Proof. induction a as [|c a IH]; simpl; [reflexivity | now rewrite IH]. Qed.

Lemma Substring_length (sub s : string) :
  Substring sub s -> String.length sub <= String.length s.
Proof.
  intros [pre [post ->]]. rewrite !string_length_append. lia.
Qed.

Lemma Substring_of_empty (sub : string) : Substring sub "" <-> sub = ""%string.
Proof.
  split.
  - intros H. apply Substring_length in H. destruct sub; [reflexivity | simpl in H; lia].
  - intros ->. now exists ""%string, ""%string.
Qed.

Lemma lowerByte_facts (c : ascii) :
  isUpper (lowerByte c) = false
  /\ lowerByte (lowerByte c) = lowerByte c
  /\ (byte_val (lowerByte c) <? 128)%N = (byte_val c <? 128)%N.
Proof.
  destruct c as [b0 b1 b2 b3 b4 b5 b6 b7].
  destruct b0, b1, b2, b3, b4, b5, b6, b7; vm_compute; repeat split.
Qed.

Lemma mapBytes_lower_facts (s : string) :
  hasUpper (mapBytes lowerByte s) = false
  /\ isASCII (mapBytes lowerByte s) = isASCII s
  /\ String.length (mapBytes lowerByte s) = String.length s.
Proof.
  induction s as [|c s [IH1 [IH2 IH3]]]; simpl; [repeat split|].
  destruct (lowerByte_facts c) as [H1 [_ H3]].
  rewrite H1, IH1, H3, IH2, IH3. repeat split.
Qed.

(** On a string of ASCII bytes [ToLower] keeps the length, leaves no
    upper-case letter and is idempotent. *)
Lemma ToLower_ascii (s : string) :
  isASCII s = true ->
  isASCII (ToLower s) = true
  /\ hasUpper (ToLower s) = false
  /\ String.length (ToLower s) = String.length s
  /\ ToLower (ToLower s) = ToLower s.
Proof.
  intros Ha. destruct (mapBytes_lower_facts s) as [M1 [M2 M3]].
  unfold ToLower. rewrite Ha. destruct (hasUpper s) eqn:Hu.
  - rewrite M2, Ha, M1. repeat split; auto.
  - rewrite Ha, Hu. repeat split; auto.
Qed.

(** Edge cases of [foundTerms]: in the empty text exactly the terms
    whose lower-cased form is empty are found (for a term of ASCII
    bytes, the empty term only); and a term that is found is, once
    lower-cased, no longer than the lower-cased text (for ASCII text
    and term: no longer than the text). *)
Theorem foundTerms_empty_text_and_long_terms (text : string) (terms0 : list string) :
  (forall t, In t (foundTerms "" terms0) <-> In t terms0 /\ ToLower t = ""%string)
  /\ (forall t, isASCII t = true -> (ToLower t = ""%string <-> t = ""%string))
  /\ (forall t, In t (foundTerms text terms0) ->
        String.length (ToLower t) <= String.length (ToLower text))
  /\ (forall t, isASCII text = true -> isASCII t = true ->
        String.length text < String.length t -> ~ In t (foundTerms text terms0)).
Proof.
  assert (S : forall tx, Selects (Matches tx) terms0 (foundTerms tx terms0)).
  { intros tx. rewrite foundTerms_filter. apply Selects_filter.
    intros t. apply Contains_spec. }
  assert (L : forall t, In t (foundTerms text terms0) ->
                String.length (ToLower t) <= String.length (ToLower text)).
  { intros t Ht. apply (Selects_In _ _ _ (S text)) in Ht as [_ Hm].
    now apply Substring_length. }
  split; [|split; [|split; [exact L|]]].
  - intros t. rewrite (Selects_In _ _ _ (S ""%string) t). unfold Matches.
    change (ToLower "") with ""%string. now rewrite Substring_of_empty.
  - intros t Ha. destruct (ToLower_ascii t Ha) as [_ [_ [Hl _]]]. split.
    + intros E. rewrite E in Hl. destruct t; [reflexivity | discriminate].
    + now intros ->.
  - intros t Ha Hb Hlt Hin. apply L in Hin.
    destruct (ToLower_ascii text Ha) as [_ [_ [H1 _]]].
    destruct (ToLower_ascii t Hb) as [_ [_ [H2 _]]]. lia.
Qed.

(** Matching does not depend on the case of ASCII letters: the terms
    found in the lower-cased text are the terms found in the text, and
    lower-casing the terms before the search gives the lower-cased
    result of the search. *)
Theorem foundTerms_ignores_ascii_case (text : string) (terms0 : list string) :
  isASCII text = true -> forallb isASCII terms0 = true ->
  foundTerms (ToLower text) terms0 = foundTerms text terms0
  /\ foundTerms text (map ToLower terms0) = map ToLower (foundTerms text terms0).
Proof.
  intros Ha Ht. rewrite !foundTerms_filter.
  destruct (ToLower_ascii text Ha) as [_ [_ [_ Hi]]]. rewrite Hi.
  split; [reflexivity|].
  rewrite filter_map_swap. f_equal. apply filter_ext_in. intros t Hin.
  rewrite forallb_forall in Ht.
  destruct (ToLower_ascii t (Ht t Hin)) as [_ [_ [_ Ht2]]]. now rewrite Ht2.
Qed.

(* ================================================================== *)
(** * More on the filter request *)
(* ================================================================== *)

Lemma escape_of_byte (c : ascii) :
  escapedByte (upperhex (byte_val c / 16)) = true
  /\ escapedByte (upperhex (byte_val c mod 16)) = true
  /\ (escapedByte c = true -> formDelimiter c = false).
Proof.
  destruct c as [b0 b1 b2 b3 b4 b5 b6 b7].
  destruct b0, b1, b2, b3, b4, b5, b6, b7; vm_compute; repeat split;
    intros; discriminate.
Qed.

Lemma QueryEscape_bytes (s : string) : allBytes escapedByte (QueryEscape s) = true.
Proof.
  induction s as [|c s IH]; simpl; [reflexivity|].
  destruct (shouldEscape c) eqn:E.
  - destruct (byte_val c =? 32)%N; simpl.
    + exact IH.
    + destruct (escape_of_byte c) as [H1 [H2 _]]. now rewrite H1, H2, IH.
  - simpl. unfold escapedByte at 1. now rewrite E, IH.
Qed.

Lemma allBytes_impl (p q : ascii -> bool) (s : string) :
  (forall c, p c = true -> q c = true) -> allBytes p s = true -> allBytes q s = true.
Proof.
  intros H. induction s as [|c s IH]; simpl; [reflexivity|].
  intros Hp. apply andb_prop in Hp as [H1 H2]. now rewrite (H c H1), IH.
Qed.

(** Whatever the watch terms hold, the body of the request is the one
    form field [track]: after [track=] comes a value in which no [&]
    and no [=] occurs, only letters, digits, [-], [_], [.], [~], [+]
    and [%]-escapes; and the Content-Length the request announces is
    six more than the length of that value. *)
Theorem filter_request_body_is_one_field :
  exists value,
    Body filterRequest = ("track=" ++ value)%string
    /\ value = QueryEscape (Join terms ",")
    /\ allBytes escapedByte value = true
    /\ allBytes (fun c => negb (formDelimiter c)) value = true
    /\ ContentLength filterRequest = (6 + len value)%Z.
Proof.
  exists (QueryEscape (Join terms ",")).
  split; [reflexivity|]. split; [reflexivity|].
  split; [apply QueryEscape_bytes|]. split.
  - apply allBytes_impl with (p := escapedByte); [|apply QueryEscape_bytes].
    intros c Hc. destruct (escape_of_byte c) as [_ [_ H]]. now rewrite (H Hc).
  - unfold filterRequest, form, len. cbn [ContentLength setHeader NewRequest].
    unfold len. change (Encode [("track", [Join terms ","])])
      with ("track=" ++ QueryEscape (Join terms ","))%string.
    cbn [String.length String.append]. lia.
Qed.

(* ================================================================== *)
(** * More on the session *)
(* ================================================================== *)

(** Induction over the reached states, with the run that reached the
    state at hand. *)
Lemma reachable_ind_run (P : Session -> Prop) :
  P Run ->
  (forall ls l s s', run ls Run = Some s -> P s -> step l s = Some s' -> P s') ->
  forall ls s, run ls Run = Some s -> P s.
Proof.
  intros H0 Hstep ls. induction ls as [|l ls IH] using rev_ind; intros s.
  - simpl. now intros [= <-].
  - rewrite run_app. destruct (run ls Run) as [s1|] eqn:E; [|discriminate].
    simpl. destruct (step l s1) as [s2|] eqn:E2; [|discriminate].
    intros [= <-]. eapply Hstep; eauto.
Qed.




Lemma closedIn_closes (tr : list event) (c : handle) :
  closedIn tr c = true <-> In c (closes tr).
Proof.
  induction tr as [|e tr IH]; simpl; [split; [discriminate | contradiction]|].
  destruct e; simpl; try exact IH.
  rewrite orb_true_iff, IH, Nat.eqb_eq. split; intros [H|H]; auto.
Qed.

Lemma replay_released (tr : list event) (v v' : registry) :
  replay tr v = Some v' -> released v' = rev (closes tr) ++ released v.
Proof.
  revert v. induction tr as [|e tr IH]; intros v; simpl.
  - now intros [= <-].
  - destruct (replayEvent e v) as [v1|] eqn:E; [|discriminate]. intros R.
    rewrite (IH v1 R). clear IH R.
    destruct e as [| |c|[c|]| | | | | | | |]; simpl in *;
      repeat match type of E with
             | context [match ?x with _ => _ end] => destruct x eqn:?
             end;
      try discriminate; injection E as <-; simpl; rewrite ?app_nil_r;
      try reflexivity.
    now rewrite <- app_assoc.
Qed.

(** The handles of the registry, read off the trace. *)
Lemma registry_closes (ls : list label) (s : Session) :
  run ls Run = Some s ->
  (forall c, conn s = Some c -> c < dialed s /\ ~ In c (closes (trace s)))
  /\ (forall c, In c (closes (trace s)) -> c < dialed s)
  /\ (forall c, c < dialed s -> conn s = Some c \/ In c (closes (trace s))).
Proof.
  intros R. destruct (registry_reachable ls s R) as [v [Hr [_ [_ [H1 [H2 H3]]]]]].
  apply replay_released in Hr. simpl in Hr. rewrite app_nil_r in Hr.
  rewrite Hr in H1, H2, H3.
  repeat split.
  - now apply H1.
  - destruct (H1 c H) as [_ Hn]. now rewrite <- in_rev in Hn.
  - intros c Hc. apply H2. now rewrite <- in_rev.
  - intros c Hc. destruct (H3 c Hc) as [E|E]; [now left | right; now rewrite in_rev].
Qed.

Lemma step_closes (l : label) (s s' : Session) :
  step l s = Some s' ->
  closes (trace s') = closes (trace s)
  \/ exists c, conn s = Some c /\ closes (trace s') = closes (trace s) ++ [c].
Proof.
  intros H. step_cases H; cbn [trace]; rewrite ?closes_app; cbn; rewrite ?app_nil_r;
    auto; right; eexists; split; reflexivity.
Qed.

(** The code never closes a connection twice and never closes one it
    did not dial: the handles [conn.Close()] is called on are all
    different and all dialed; the handle in [conn] has not been closed;
    and every dialed handle that is not in [conn] has been closed. *)
Theorem connections_are_closed_once (ls : list label) (s : Session) :
  run ls Run = Some s ->
  NoDup (closes (trace s))
  /\ (forall c, In c (closes (trace s)) -> c < dialed s)
  /\ (forall c, conn s = Some c -> c < dialed s /\ ~ In c (closes (trace s)))
  /\ (forall c, c < dialed s -> conn s = Some c \/ In c (closes (trace s))).
Proof.
  intros R. destruct (registry_closes ls s R) as [H1 [H2 H3]].
  split; [|auto]. clear H1 H2 H3. revert ls s R.
  apply reachable_ind_run with (P := fun s => NoDup (closes (trace s))).
  - constructor.
  - intros ls l s s' R Hn E.
    destruct (step_closes l s s' E) as [->|[c [Hc ->]]]; [exact Hn|].
    destruct (registry_closes ls s R) as [H1 _]. destruct (H1 c Hc) as [_ Hnot].
    apply NoDup_rev in Hn. rewrite <- (rev_involutive (closes (trace s) ++ [c])).
    apply NoDup_rev. rewrite rev_app_distr. simpl. constructor; [|exact Hn].
    now rewrite <- in_rev.
Qed.

Lemma latestDialed_step (l : label) (s s' : Session) :
  latestDialed s -> step l s = Some s' -> latestDialed s'.
Proof.
  intros [Hp Hc] H. unfold latestDialed.
  step_cases H; cbn [pump conn dialed pumpHandle]; split; intros c0 E;
    try discriminate E; try (injection E as <-); auto;
    try (apply Hp; rewrite ?Heqp; assumption);
    try (apply Hp; match goal with H : pump _ = _ |- _ => rewrite H end; reflexivity).
Qed.

Lemma latestDialed_reachable (ls : list label) (s : Session) :
  run ls Run = Some s -> latestDialed s.
Proof.
  apply reachable_ind with (P := latestDialed).
  - split; intros c; discriminate.
  - intros l s0 s1. apply latestDialed_step.
Qed.

(** The pump always works on the connection dialed last, and that
    connection is the one in [conn] or has been closed: whoever closes
    the handle in [conn] and clears it (the recycler on its timer or on
    cancellation, the next dial) has cut the connection the pump is
    waiting or reading on, whatever was dialed or recycled before. *)
Theorem pump_connection_is_registered_or_closed
        (ls : list label) (s : Session) (c : handle) :
  run ls Run = Some s -> pumpHandle (pump s) = Some c ->
  S c = dialed s
  /\ (conn s = Some c \/ closedIn (trace s) c = true)
  /\ (conn s = None -> closedIn (trace s) c = true)
  /\ (forall c', conn s = Some c' -> c' = c /\ closedIn (trace s) c = false).
Proof.
  intros R Hp. destruct (latestDialed_reachable ls s R) as [L1 L2].
  destruct (registry_closes ls s R) as [H1 [H2 H3]].
  pose proof (L1 c Hp) as Hc.
  assert (D : conn s = Some c \/ closedIn (trace s) c = true).
  { destruct (H3 c ltac:(lia)) as [E|E]; [now left | right; now apply closedIn_closes]. }
  split; [exact Hc|]. split; [exact D|]. split.
  - intros Hn. destruct D as [E|E]; [congruence | exact E].
  - intros c' E. pose proof (L2 c' E) as Hc'. assert (c' = c) by lia. subst c'.
    split; [reflexivity|]. destruct (H1 c E) as [_ Hn].
    destruct (closedIn (trace s) c) eqn:X; [|reflexivity].
    apply closedIn_closes in X. contradiction.
Qed.

Lemma step_clock (l : label) (s s' : Session) :
  step l s = Some s' -> (now s <= now s')%Z.
Proof.
  intros H. step_cases H; cbn [now]; try lia;
    repeat match goal with
           | E : (_ <=? _)%Z = true |- _ => apply Z.leb_le in E
           | E : (_ <=? _)%Z = false |- _ => apply Z.leb_gt in E
           end;
    cbn [dialLatency] in *; unfold Second in *; try lia.
Qed.

Lemma armedSince_step (a0 : Z) (l : label) (s s' : Session) :
  armedSince a0 s -> step l s = Some s' -> armedSince a0 s'.
Proof.
  intros [H0 Ha] H. pose proof (step_clock l s s' H) as Hc.
  split; [lia|]. intros a E.
  assert (X : recycler s' = recycler s \/ recycler s' = RExit
              \/ recycler s' = RSelect (now s)).
  { clear - H. step_cases H; cbn [recycler]; auto. }
  destruct X as [X|[X|X]].
  - rewrite X in E. specialize (Ha a E). lia.
  - congruence.
  - rewrite X in E. injection E as <-. lia.
Qed.

Lemma armedSince_run (a0 : Z) (ls : list label) (s s' : Session) :
  armedSince a0 s -> run ls s = Some s' -> armedSince a0 s'.
Proof.
  revert s. induction ls as [|l ls IH]; intros s Hs; simpl.
  - now intros [= <-].
  - destruct (step l s) as [s1|] eqn:E; [|discriminate].
    apply IH. eapply armedSince_step; eauto.
Qed.

(** The recycler never closes a connection before two minutes have
    passed since [Run], and two closes on its timer are at least two
    minutes apart, whatever happens in between: each turn of its loop
    starts a new timer. *)
Theorem recycles_are_two_minutes_apart (ls : list label) (s s' : Session) :
  run ls Run = Some s -> step RecyclerTimer s = Some s' ->
  (2 * Minute <= now s)%Z
  /\ (forall ls' s1 s2,
         run ls' s' = Some s1 -> step RecyclerTimer s1 = Some s2 ->
         (now s + 2 * Minute <= now s1)%Z).
Proof.
  intros R H.
  assert (A0 : armedSince 0 Run) by (split; [reflexivity|]; intros a [= <-]; simpl; lia).
  pose proof (armedSince_run 0 ls Run s A0 R) as [_ As].
  assert (T : forall x y, step RecyclerTimer x = Some y ->
                exists a, recycler x = RSelect a /\ (a + 2 * Minute <= now x)%Z
                          /\ recycler y = RSelect (now x) /\ now y = now x).
  { intros x y E. unfold step, recyclerStep in E.
    destruct (recycler x) as [a|]; [|discriminate].
    destruct (a + 2 * Minute <=? now x)%Z eqn:L; [|discriminate].
    apply Z.leb_le in L. injection E as <-. exists a.
    repeat split; auto; apply recyclerClose_effect. }
  destruct (T s s' H) as [a [Ea [La [Es' Ns']]]].
  split; [specialize (As a Ea); lia|].
  intros ls' s1 s2 R1 H1.
  assert (A1 : armedSince (now s) s').
  { split; [lia|]. intros a' E. rewrite Es' in E. injection E as <-. lia. }
  pose proof (armedSince_run (now s) ls' s' s1 A1 R1) as [_ A2].
  destruct (T s1 s2 H1) as [a1 [Ea1 [La1 _]]]. specialize (A2 a1 Ea1). lia.
Qed.

Lemma closedOnExit_reachable (ls : list label) (s : Session) :
  run ls Run = Some s -> closedOnExit s.
Proof.
  apply reachable_ind with (P := closedOnExit).
  - right. split; [discriminate | reflexivity].
  - intros l s0 s1. apply closedOnExit_step.
Qed.

(** Cancellation as the comment of lines 77-80 describes it.  From any
    state a session reaches in which the pump decodes and the recycler
    still runs: once the context is cancelled, the recycler closes the
    connection and returns, the failing read ends the decode loop and
    the pump, at its select, closes the channel and returns.  No record
    is sent on the way, no new request is made, and every connection
    ever dialed is closed. *)
Theorem cancel_while_decoding_closes_channel
        (ls : list label) (s : Session) (c : handle) (a : Z) :
  run ls Run = Some s -> pump s = PDecode c -> recycler s = RSelect a ->
  exists s',
    run cancelWhileDecoding s = Some s'
    /\ pump s' = PExit /\ recycler s' = RExit
    /\ chanCloses s' = 1
    /\ tweetsChan s' = tweetsChan s
    /\ requests (trace s') = requests (trace s)
    /\ conn s' = None
    /\ dialed s' = dialed s
    /\ (forall c', c' < dialed s' -> closedIn (trace s') c' = true).
Proof.
  intros R Hp Hr.
  assert (Hc : chanCloses s = 0).
  { destruct (closedOnExit_reachable ls s R) as [[E _]|[_ E]]; [congruence | exact E]. }
  assert (E : exists s', run cancelWhileDecoding s = Some s'
                /\ pump s' = PExit /\ recycler s' = RExit /\ chanCloses s' = 1
                /\ tweetsChan s' = tweetsChan s
                /\ requests (trace s') = requests (trace s)
                /\ conn s' = None /\ dialed s' = dialed s).
  { destruct s as [n d cn k ch cl p rc tr]; cbn in Hp, Hr, Hc; subst p rc cl.
    unfold cancelWhileDecoding. cbn [run]. unfold step, recyclerStep, pumpStep.
    cbn [recycler ctxDone pump]. unfold recyclerClose. cbn [conn].
    destruct (closeCurrent cn) as [c1 closing] eqn:Ec. cbn.
    eexists. split; [reflexivity|]. cbn.
    assert (c1 = None) by (destruct cn; simpl in Ec; congruence).
    assert (requests closing = []) by (destruct cn; simpl in Ec; injection Ec as _ <-; reflexivity).
    repeat split; auto.
    rewrite !requests_app. cbn. rewrite !requests_app, H0. cbn. now rewrite !app_nil_r. }
  destruct E as [s' [R' [P' [Rc' [C' [T' [Q' [Cn' D']]]]]]]].
  exists s'. repeat split; auto.
  intros c' Hlt.
  assert (Rs : run (ls ++ cancelWhileDecoding) Run = Some s') by (now rewrite run_app, R).
  destruct (registry_closes _ s' Rs) as [_ [_ H3]].
  destruct (H3 c' Hlt) as [X|X]; [congruence | now apply closedIn_closes].
Qed.

Lemma over_step (l : label) (s s' : Session) :
  pump s = PExit -> recycler s = RExit -> step l s = Some s' ->
  idleLabel l = true
  /\ pump s' = PExit /\ recycler s' = RExit
  /\ trace s' = trace s /\ conn s' = conn s /\ tweetsChan s' = tweetsChan s
  /\ chanCloses s' = chanCloses s /\ dialed s' = dialed s.
Proof.
  intros Hp Hr H. step_cases H; cbn; try congruence; repeat split; auto.
Qed.

(** Once both goroutines have returned the session is over: only the
    clock and the context can still move; nothing is logged, dialed,
    closed, requested or sent any more. *)
Theorem session_is_over_after_both_return (ls : list label) (s s' : Session) :
  pump s = PExit -> recycler s = RExit -> run ls s = Some s' ->
  forallb idleLabel ls = true
  /\ pump s' = PExit /\ recycler s' = RExit
  /\ trace s' = trace s /\ conn s' = conn s /\ tweetsChan s' = tweetsChan s
  /\ chanCloses s' = chanCloses s /\ dialed s' = dialed s.
Proof.
  revert s. induction ls as [|l ls IH]; intros s Hp Hr; simpl.
  - intros [= <-]. repeat split; auto.
  - destruct (step l s) as [s1|] eqn:E; [|discriminate]. intros R.
    destruct (over_step l s s1 Hp Hr E) as [I [P1 [R1 [T1 [C1 [W1 [K1 D1]]]]]]].
    destruct (IH s1 P1 R1 R) as [I2 [P2 [R2 [T2 [C2 [W2 [K2 D2]]]]]]].
    rewrite I, I2. repeat split; congruence.
Qed.

Lemma object_known (members : list (string * json)) (t : Tweet) :
  object members t = object (knownMembers members) t.
Proof.
  revert t. induction members as [|[k v] m IH]; intros t; [reflexivity|].
  unfold knownMembers. cbn [filter fst]. fold (knownMembers m).
  destruct (keyIs "Text" k) eqn:E1; cbn [orb].
  - cbn [object]. rewrite E1. destruct (storeText v t). now rewrite IH.
  - destruct (keyIs "Terms" k) eqn:E2.
    + cbn [object]. rewrite E1, E2. destruct (storeTerms v t). now rewrite IH.
    + cbn [object]. rewrite E1, E2. rewrite IH.
      now destruct (object (knownMembers m) t).
Qed.

Lemma object_text (members : list (string * json)) (t : Tweet) :
  Text (fst (object members t)) = lastString (Text t) (textMembers members).
Proof.
  revert t. induction members as [|[k v] m IH]; intros t; [reflexivity|].
  unfold textMembers. cbn [filter fst object]. fold (textMembers m).
  destruct (keyIs "Text" k) eqn:E1.
  - unfold lastString. cbn [fold_left snd]. fold (lastString (match v with JString s => s | _ => Text t end) (textMembers m)).
    destruct (storeText v t) as [t1 ok1] eqn:Es.
    specialize (IH t1). destruct (object m t1) as [t2 ok2]. cbn [fst] in *. rewrite IH.
    f_equal. destruct v; cbn in Es; inversion Es; reflexivity.
  - assert (Ht : forall t1 ok1,
               (if keyIs "Terms" k then storeTerms v t else (t, true)) = (t1, ok1) ->
               Text t1 = Text t).
    { intros t1 ok1. destruct (keyIs "Terms" k); [|now intros [= <- _]].
      destruct v; cbn; intros [= <- _]; reflexivity. }
    destruct (if keyIs "Terms" k then storeTerms v t else (t, true)) as [t1 ok1] eqn:Es.
    specialize (IH t1). destruct (object m t1) as [t2 ok2]. cbn [fst] in *.
    rewrite IH. now rewrite (Ht _ _ eq_refl).
Qed.

(** What the consumer sees of a JSON object of the stream (lines
    133-142).  The text of the record is the last string under a key
    that selects [Text], or empty when there is none; its terms are
    computed from that text, so a terms member on the wire never reaches
    the consumer; and members whose key selects no field of [Tweet]
    change neither the record nor whether the decode succeeds. *)
Theorem sent_record_depends_on_text_members_only (members : list (string * json)) :
  annotated members
  = mkTweet (lastString "" (textMembers members))
            (foundTerms (lastString "" (textMembers members)) terms)
  /\ decoded members = decoded (knownMembers members)
  /\ decodable members = decodable (knownMembers members)
  /\ annotated (knownMembers members) = annotated members.
Proof.
  assert (D : decoded members = decoded (knownMembers members)).
  { unfold decoded, Decode, Unmarshal. now rewrite object_known. }
  assert (T : Text (decoded members) = lastString "" (textMembers members)).
  { unfold decoded, Decode, Unmarshal. now rewrite object_text. }
  repeat split.
  - unfold annotated. now rewrite T.
  - exact D.
  - unfold decodable, Decode, Unmarshal. now rewrite object_known.
  - unfold annotated. now rewrite <- D.
Qed.

Lemma append_assoc (a b c : string) : ((a ++ b) ++ c = a ++ b ++ c)%string.
Proof. induction a as [|x a IH]; simpl; [reflexivity | now rewrite IH]. Qed.

Lemma concat_cons (sep x y : string) (l : list string) :
  String.concat sep (x :: y :: l) = (x ++ sep ++ String.concat sep (y :: l))%string.
Proof. reflexivity. Qed.

Lemma concat_split_at_separator (sep a b : string) (l1 l2 : list string) :
  String.concat sep (l1 ++ (a ++ sep ++ b)%string :: l2)
  = String.concat sep (l1 ++ a :: b :: l2).
Proof.
  induction l1 as [|x l1 IH].
  - cbn [app]. rewrite concat_cons. destruct l2 as [|y l2].
    + reflexivity.
    + rewrite !concat_cons. now rewrite !append_assoc.
  - destruct l1 as [|x' l1]; cbn [app] in *.
    + rewrite !(concat_cons sep x). now rewrite IH.
    + rewrite !(concat_cons sep x). now rewrite IH.
Qed.

Lemma unescape_byte (c : ascii) (u : string) :
  unescape (if shouldEscape c then
              if (byte_val c =? 32)%N then String "+" u
              else String "%" (String (upperhex (byte_val c / 16))
                                 (String (upperhex (byte_val c mod 16)) u))
            else String c u)
  = String c (unescape u).
Proof.
  destruct c as [b0 b1 b2 b3 b4 b5 b6 b7].
  destruct b0, b1, b2, b3, b4, b5, b6, b7; reflexivity.
Qed.

Lemma unescape_QueryEscape (s : string) : unescape (QueryEscape s) = s.
Proof.
  induction s as [|c s IH]; [reflexivity|].
  cbn [QueryEscape]. rewrite unescape_byte. now rewrite IH.
Qed.

Lemma QueryEscape_inj (s1 s2 : string) : QueryEscape s1 = QueryEscape s2 -> s1 = s2.
Proof.
  intros H. rewrite <- (unescape_QueryEscape s1), <- (unescape_QueryEscape s2).
  now rewrite H.
Qed.

Lemma upToNewline_split (body : string) :
  exists post, body = (upToNewline body ++ post)%string.
Proof.
  induction body as [|c body [post IH]]; simpl.
  - now exists "".
  - destruct (byte_val c =? 10)%N.
    + now exists (String c body).
    + exists post. simpl. now rewrite <- IH.
Qed.

Lemma dropCR_split (s : string) :
  exists post, s = (dropCR s ++ post)%string
               /\ String.length (dropCR s) <= String.length s.
Proof.
  induction s as [|c s [post [IH L]]].
  - exists "". split; [reflexivity | apply Nat.le_refl].
  - destruct s as [|c' s'].
    + simpl. destruct (byte_val c =? 13)%N.
      * exists (String c ""). split; [reflexivity | simpl; lia].
      * exists "". split; [reflexivity | simpl; lia].
    + exists post. change (dropCR (String c (String c' s')))
        with (String c (dropCR (String c' s'))).
      split; [cbn [append]; f_equal; exact IH | cbn [String.length] in *; lia].
Qed.

Lemma upToNewline_noLF (body : string) :
  allBytes (fun c => negb (byte_val c =? 10)%N) (upToNewline body) = true.
Proof.
  induction body as [|c body IH]; simpl; [reflexivity|].
  destruct (byte_val c =? 10)%N eqn:E; simpl; [reflexivity|]. now rewrite E, IH.
Qed.

Lemma dropCR_allBytes (p : ascii -> bool) (s : string) :
  allBytes p s = true -> allBytes p (dropCR s) = true.
Proof.
  induction s as [|c s IH]; [reflexivity|]. intros H.
  destruct s as [|c' s'].
  - simpl. now destruct (byte_val c =? 13)%N.
  - change (dropCR (String c (String c' s'))) with (String c (dropCR (String c' s'))).
    simpl in H |- *. apply andb_prop in H as [H1 H2]. rewrite H1. now apply IH.
Qed.

Lemma append_empty_r (a : string) : (a ++ "")%string = a.
Proof. induction a as [|x a IH]; simpl; [reflexivity | now rewrite IH]. Qed.

Lemma dropCR_full (s : string) :
  String.length (dropCR s) = String.length s -> dropCR s = s.
Proof.
  intros H. destruct (dropCR_split s) as [post [E _]].
  assert (L : String.length s = String.length (dropCR s) + String.length post)
    by (rewrite E at 1; apply string_length_append).
  destruct post as [|x post]; [|simpl in L; lia].
  rewrite append_empty_r in E. now symmetry.
Qed.

(** The line a non-200 answer puts in the log (lines 127-129) is never
    more than one line of the body: it is a prefix of the body, holds
    no line feed and is no longer than the scanner's buffer of 64 KiB.
    It fills the buffer only when it is the whole body and the end of
    the body was reported with its last bytes; a first line longer than
    the buffer logs the empty string.  A body of one line that fills
    the buffer exactly is logged in full when its end is reported with
    its last bytes, and as the empty string when it is not. *)
Theorem logged_line_is_one_short_line (body : string) :
  HasPrefix body (scanText body) = true
  /\ allBytes (fun c => negb (byte_val c =? 10)%N) (scanText body) = true
  /\ (N.of_nat (String.length (scanText body)) <= MaxScanTokenSize)%N
  /\ (N.of_nat (String.length (scanText body)) = MaxScanTokenSize ->
      scanText body = body /\ eofWithLastBytes body = true)
  /\ ((MaxScanTokenSize < N.of_nat (String.length (upToNewline body)))%N ->
      scanText body = ""%string)
  /\ (upToNewline body = body ->
      N.of_nat (String.length body) = MaxScanTokenSize ->
      scanText body = if eofWithLastBytes body then dropCR body else ""%string).
Proof.
  assert (B : upToNewline body = body ->
              N.of_nat (String.length body) = MaxScanTokenSize ->
              scanText body = if eofWithLastBytes body then dropCR body else ""%string).
  { intros U Hlen. unfold scanText. rewrite U, Hlen, N.leb_refl, N.eqb_refl.
    now rewrite String.eqb_refl. }
  revert B. unfold scanText. intros B.
  destruct (upToNewline_split body) as [post1 H1].
  destruct (dropCR_split (upToNewline body)) as [post2 [H2 L]].
  assert (P : HasPrefix body (dropCR (upToNewline body)) = true).
  { apply HasPrefix_spec. exists (post2 ++ post1)%string.
    rewrite <- append_assoc. now rewrite <- H2. }
  assert (A : allBytes (fun c => negb (byte_val c =? 10)%N) (dropCR (upToNewline body))
              = true) by apply dropCR_allBytes, upToNewline_noLF.
  destruct (MaxScanTokenSize <=? N.of_nat (String.length (upToNewline body)))%N eqn:E.
  - apply N.leb_le in E.
    destruct ((N.of_nat (String.length (upToNewline body)) =? MaxScanTokenSize)%N
              && String.eqb (upToNewline body) body && eofWithLastBytes body) eqn:C.
    + apply andb_prop in C as [C C3]. apply andb_prop in C as [C1 C2].
      apply N.eqb_eq in C1. apply String.eqb_eq in C2.
      split; [exact P|]. split; [exact A|]. split; [lia|]. split.
      * intros Hlen. split; [|exact C3].
        rewrite dropCR_full; [exact C2 | lia].
      * split; [intros Hlt; lia | exact B].
    + split; [reflexivity|]. split; [reflexivity|].
      split; [unfold MaxScanTokenSize; simpl; lia|]. split.
      * unfold MaxScanTokenSize. simpl. discriminate.
      * split; [reflexivity | exact B].
  - apply N.leb_gt in E.
    split; [exact P|]. split; [exact A|]. split; [lia|]. split.
    + intros Hlen. lia.
    + split; [intros Hlt; lia | exact B].
Qed.

Lemma upToNewline_line (line rest : string) :
  allBytes inLine line = true ->
  upToNewline line = line
  /\ upToNewline (line ++ String "010" rest) = line
  /\ upToNewline (line ++ String "013" (String "010" rest)) = (line ++ String "013" "")%string.
Proof.
  induction line as [|c line IH]; simpl.
  - intros _. repeat split.
  - intros H. apply andb_prop in H as [H1 H2]. destruct (IH H2) as [I1 [I2 I3]].
    unfold inLine in H1. apply negb_true_iff, orb_false_iff in H1 as [H1 _].
    rewrite H1, I1, I2, I3. repeat split.
Qed.

Lemma dropCR_line (line : string) :
  allBytes inLine line = true ->
  dropCR line = line /\ dropCR (line ++ String "013" "") = line.
Proof.
  induction line as [|c line IH].
  - intros _. split; reflexivity.
  - simpl allBytes. intros H. apply andb_prop in H as [H1 H2].
    destruct (IH H2) as [I1 I2].
    unfold inLine in H1. apply negb_true_iff, orb_false_iff in H1 as [_ H1].
    destruct line as [|c' line'].
    + simpl. rewrite H1. split; reflexivity.
    + split.
      * change (dropCR (String c (String c' line')))
          with (String c (dropCR (String c' line'))). now rewrite I1.
      * change (dropCR (String c (String c' line') ++ String "013" ""))
          with (String c (dropCR (String c' line' ++ String "013" ""))). now rewrite I2.
Qed.

(** When the body of a non-200 answer starts with a line that holds no
    carriage return and fits the scanner's buffer, that line is what is
    logged, whether it ends in LF, in CR LF or with the body. *)
Theorem first_line_of_error_body_is_logged (line rest : string) :
  allBytes inLine line = true ->
  (N.of_nat (String.length line) + 1 < MaxScanTokenSize)%N ->
  scanText line = line
  /\ scanText (line ++ String "010" rest) = line
  /\ scanText (line ++ String "013" (String "010" rest)) = line.
Proof.
  intros H L. destruct (upToNewline_line line rest H) as [U1 [U2 U3]].
  destruct (dropCR_line line H) as [D1 D2].
  unfold scanText. rewrite U1, U2, U3, string_length_append. cbn [String.length].
  assert (E1 : (MaxScanTokenSize <=? N.of_nat (String.length line))%N = false)
    by (apply N.leb_gt; lia).
  assert (E2 : (MaxScanTokenSize <=? N.of_nat (String.length line + 1))%N = false)
    by (apply N.leb_gt; lia).
  rewrite E1, E2, D1, D2. repeat split.
Qed.

Lemma sends_app (tr1 tr2 : list event) : sends (tr1 ++ tr2) = sends tr1 ++ sends tr2.
Proof. unfold sends. apply flat_map_app. Qed.

Lemma step_sends (l : label) (s s' : Session) :
  step l s = Some s' ->
  tweetsChan s' = tweetsChan s ++ received l s
  /\ sends (trace s') = sends (trace s) ++ received l s
  /\ List.length (received l s) = match l with ConsumerRecv => 1 | _ => 0 end.
Proof.
  intros H. unfold received.
  step_cases H; cbn [trace tweetsChan]; rewrite ?sends_app; cbn;
    rewrite ?app_nil_r; repeat split; reflexivity.
Qed.

Lemma run_sends (ls : list label) (s0 s : Session) :
  run ls s0 = Some s ->
  exists ts,
    tweetsChan s = tweetsChan s0 ++ ts
    /\ sends (trace s) = sends (trace s0) ++ ts
    /\ List.length ts = countRecvs ls.
Proof.
  revert s0. induction ls as [|l ls IH]; intros s0; simpl.
  - intros [= <-]. exists []. now rewrite !app_nil_r.
  - destruct (step l s0) as [s1|] eqn:E; [|discriminate]. intros R.
    destruct (IH s1 R) as [ts [H1 [H2 H3]]].
    destruct (step_sends l s0 s1 E) as [S1 [S2 S3]].
    exists (received l s0 ++ ts). rewrite H1, H2, S1, S2, <- !app_assoc.
    repeat split. rewrite List.length_app, S3, H3. unfold countRecvs.
    destruct l; reflexivity.
Qed.

Lemma foundTerms_Subseq (text : string) (terms0 : list string) :
  Subseq (foundTerms text terms0) terms0.
Proof.
  rewrite foundTerms_filter.
  apply Selects_Subseq
    with (P := fun term => Contains (ToLower text) (ToLower term) = true).
  apply Selects_filter. intros x. reflexivity.
Qed.

(** What a consumer receives from the channel of [Run], at any point
    of any session: exactly the records the pump sent, in the order it
    sent them, one for each receive; and the terms of each are the
    watch terms found in its text, in the order of the watch list. *)
Theorem every_received_tweet_is_annotated (ls : list label) (s : Session) :
  run ls Run = Some s ->
  tweetsChan s = sends (trace s)
  /\ List.length (tweetsChan s) = countRecvs ls
  /\ Forall (fun t => Terms t = foundTerms (Text t) terms /\ Subseq (Terms t) terms)
            (tweetsChan s).
Proof.
  intros R. destruct (run_sends ls Run s R) as [ts [H1 [H2 H3]]].
  cbn in H1, H2. split; [congruence|]. split; [congruence|].
  destruct (allAnnotated_reachable ls s R) as [Ha _].
  eapply Forall_impl; [|exact Ha]. cbn. intros t Ht. split; [exact Ht|].
  rewrite Ht. apply foundTerms_Subseq.
Qed.

End Properties.

(* ================================================================== *)
(** * The properties on concrete sessions *)
(* ================================================================== *)

(** The examples of the specification. *)
Example foundTerms_monkey :
  foundTerms exampleLower "I saw a MONKEY today" ["monkey"; "banana"] = ["monkey"].
Proof. reflexivity. Qed.

Example foundTerms_nothing : foundTerms exampleLower "nothing here" ["x"] = [].
Proof. reflexivity. Qed.

Example foundTerms_order :
  foundTerms exampleLower "cat and dog" ["dog"; "cat"] = ["dog"; "cat"].
Proof. reflexivity. Qed.

Example filterRequest_body :
  Body (filterRequest exampleSigner exampleReader ["cat"; "dog"]) = "track=cat%2Cdog".
Proof. reflexivity. Qed.

(** C5 as stated fails: a body of one well-formed JSON object whose
    text is a number, [{"text": 1}], puts no record on the channel:
    [Decode] returns a type error, the loop closes the body and the
    pump is back at its select; a consumer that waits for the record
    never receives it. *)
Lemma ill_typed_object_ends_decode_loop :
  wellTyped [("text", JNumber "1")] = false
  /\ exists s',
    exampleRun exampleTerms [PumpDecode (FValue (JObject [("text", JNumber "1")]))]
               decodingSession = Some s'
    /\ tweetsChan s' = []
    /\ pump s' = PSelect
    /\ trace s' = trace decodingSession ++ [EvBodyClose 0]
    /\ exampleRun exampleTerms (deliver [[("text", JNumber "1")]]) decodingSession = None.
Proof. split; [reflexivity|]. eexists. repeat split; reflexivity. Qed.

Lemma decode_loop_delivers_decodable_objects_witness :
  pump decodingSession = PDecode 0
  /\ Forall (fun m => wellTyped m = true)
            [[("text", JString "I saw a MONKEY today"); ("id", JNumber "7")]; []]
  /\ snd (Decode FEOF zeroTweet) = false
  /\ exists s',
      exampleRun exampleTerms
        (deliver [[("text", JString "I saw a MONKEY today"); ("id", JNumber "7")]; []]
         ++ [PumpDecode FEOF]) decodingSession = Some s'
      /\ tweetsChan s' = [mkTweet "I saw a MONKEY today" ["monkey"]; mkTweet "" []]
      /\ pump s' = PSelect.
Proof.
  assert (H1 : pump decodingSession = PDecode 0) by reflexivity.
  assert (H3 : Forall (fun m => wellTyped m = true)
                 [[("text", JString "I saw a MONKEY today"); ("id", JNumber "7")]; []])
    by (repeat constructor).
  assert (H4 : snd (Decode FEOF zeroTweet) = false) by reflexivity.
  repeat (split; [assumption|]).
  destruct (decode_loop_delivers_decodable_objects exampleLower exampleEOF exampleSigner
              exampleReader exampleTerms decodingSession 0 _ FEOF H1 H3 H4)
    as [s' [R [T [_ [_ [_ [P _]]]]]]].
  exists s'. split; [exact R|]. split; [rewrite T; reflexivity | exact P].
Defined.

(** C9 as stated fails: the well-formed JSON object [{"terms": 1}] has
    no text field, and [Decode] returns a type error on it, because
    its key selects the field [Terms []string]; no record is sent. *)
Lemma object_without_text_may_fail_to_decode :
  lacksField "Text" [("terms", JNumber "1")] = true
  /\ snd (Decode (FValue (JObject [("terms", JNumber "1")])) zeroTweet) = false
  /\ exists s',
      exampleRun exampleTerms [PumpDecode (FValue (JObject [("terms", JNumber "1")]))]
                 decodingSession = Some s'
      /\ tweetsChan s' = []
      /\ pump s' = PSelect.
Proof. repeat split. eexists. repeat split; reflexivity. Qed.

Lemma object_without_text_is_delivered_witness :
  pump decodingSession = PDecode 0
  /\ lacksField "Text" [("id", JNumber "7"); ("terms", JNull)] = true
  /\ termsFieldOk [("id", JNumber "7"); ("terms", JNull)] = true
  /\ exampleRun exampleTerms
       [PumpDecode (FValue (JObject [("id", JNumber "7"); ("terms", JNull)])); ConsumerRecv]
       decodingSession
     = Some (delivered decodingSession 0 [mkTweet "" []]).
Proof.
  repeat (split; [reflexivity|]).
  exact (proj2 (proj2 (object_without_text_is_delivered exampleLower exampleEOF exampleSigner
                         exampleReader exampleTerms decodingSession 0
                         [("id", JNumber "7"); ("terms", JNull)]
                         eq_refl eq_refl eq_refl))).
Defined.


Lemma non200_is_logged_and_retried_witness :
  pump Run = PSelect /\ ctxDone Run = false
  /\ Forall (fun cb : Z * string => fst cb <> StatusOK)
            [(420%Z, "Easy there, Turbo"); (429%Z, "Rate limited")]
  /\ Forall (fun m => wellTyped m = true) [[("text", JString "banana split")]]
  /\ exists s1 s2,
      exampleRun exampleTerms
        (retries [(420%Z, "Easy there, Turbo"); (429%Z, "Rate limited")]) Run = Some s1
      /\ tweetsChan s1 = []
      /\ logged (trace s1)
         = [EvLogLine "Easy there, Turbo"; EvLogStatus 420;
            EvLogLine "Rate limited"; EvLogStatus 429]
      /\ exampleRun exampleTerms
           (attempt (RTResponds StatusOK "") ++ deliver [[("text", JString "banana split")]])
           s1 = Some s2
      /\ tweetsChan s2 = [mkTweet "banana split" ["banana"]]
      /\ chanCloses s2 = 0.
Proof.
  assert (Hbad : Forall (fun cb : Z * string => fst cb <> StatusOK)
                        [(420%Z, "Easy there, Turbo"); (429%Z, "Rate limited")])
    by (repeat constructor; discriminate).
  assert (Hobjs : Forall (fun m => wellTyped m = true) [[("text", JString "banana split")]])
    by (repeat constructor).
  split; [reflexivity|]. split; [reflexivity|].
  split; [exact Hbad|]. split; [exact Hobjs|].
  destruct (proj2 (non200_is_logged_and_retried exampleLower exampleEOF exampleSigner exampleReader
                     exampleTerms Run _ _ eq_refl eq_refl Hbad Hobjs))
    as [s1 [s2 [R1 [_ [T1 [_ [_ [_ [L1 [R2 [T2 C2]]]]]]]]]]].
  exists s1, s2. repeat split; auto.
Defined.

Lemma every_attempt_posts_the_filter_request_witness :
  exampleRun exampleTerms [PumpDial (NetConnects 0%Z)] requestingSession
  = Some (afterRun exampleTerms [PumpSelect; PumpDial (NetConnects 0%Z)])
  /\ requests (trace (afterRun exampleTerms [PumpSelect; PumpDial (NetConnects 0%Z)]))
     = [filterRequest exampleSigner exampleReader exampleTerms]
  /\ Body (filterRequest exampleSigner exampleReader exampleTerms)
     = "track=monkey%2Cbanana".
Proof.
  split; [reflexivity|].
  destruct (every_attempt_posts_the_filter_request exampleLower exampleEOF exampleSigner
              exampleReader exampleTerms (PumpDial (NetConnects 0%Z)) requestingSession
              (afterRun exampleTerms [PumpSelect; PumpDial (NetConnects 0%Z)]) eq_refl)
    as [Q [_ [_ [B _]]]].
  split; [exact Q | exact B].
Defined.

Lemma dial_gives_up_after_five_seconds_witness :
  pump requestingSession = PRequest
  /\ (5 * Second < 6 * Second)%Z
  /\ exists s',
      step exampleLower exampleEOF exampleSigner exampleReader exampleTerms
           (PumpDial (NetConnects (6 * Second)%Z)) requestingSession = Some s'
      /\ conn s' = None /\ dialed s' = 0 /\ pump s' = PSelect
      /\ now s' = 5000000000%Z.
Proof.
  split; [reflexivity|]. split; [reflexivity|].
  destruct (dial_gives_up_after_five_seconds exampleLower exampleEOF exampleSigner exampleReader
              exampleTerms requestingSession (6 * Second)%Z eq_refl eq_refl)
    as [s' [R [C [D [P [N _]]]]]].
  exists s'. repeat split; auto.
Defined.

Lemma empty_term_matches_every_text_witness :
  In "" ["x"; ""]
  /\ exampleRun ["x"; ""] emptyTermSchedule Run = Some emptyTermSession
  /\ In (mkTweet "hello" [""]) (tweetsChan emptyTermSession)
  /\ In "" (Terms (mkTweet "hello" [""])).
Proof.
  assert (H1 : In "" ["x"; ""]) by (right; left; reflexivity).
  split; [exact H1|]. split; [reflexivity|]. split; [left; reflexivity|].
  exact (proj2 (proj2 (proj2 (empty_term_matches_every_text exampleLower exampleEOF exampleSigner
                                exampleReader ["x"; ""]))
                  emptyTermSchedule emptyTermSession (mkTweet "hello" [""])
                  eq_refl (or_introl eq_refl)) H1).
Defined.

(** Cancellation as lines 77-80 describe it: the recycler closes the
    connection and returns, the decode fails, the pump sees the done
    context and closes the channel. *)
Example cancellation_closes_channel :
  exampleRun exampleTerms cancelledSchedule Run = Some cancelledSession
  /\ pump cancelledSession = PExit
  /\ recycler cancelledSession = RExit
  /\ chanCloses cancelledSession = 1
  /\ conn cancelledSession = None
  /\ closedIn (trace cancelledSession) 0 = true
  /\ tweetsChan cancelledSession = [mkTweet "banana" ["banana"]].
Proof. repeat split; reflexivity. Qed.

Lemma channel_closed_once_on_exit_witness :
  exampleRun exampleTerms cancelledSchedule Run = Some cancelledSession
  /\ chanCloses cancelledSession <= 1
  /\ (chanCloses cancelledSession = 1 <-> pump cancelledSession = PExit).
Proof.
  split; [reflexivity|].
  destruct (channel_closed_once_on_exit exampleLower exampleEOF exampleSigner exampleReader
              exampleTerms cancelledSchedule cancelledSession eq_refl) as [H1 [H2 _]].
  split; [exact H1 | exact H2].
Defined.

Lemma foundTerms_ignores_ascii_case_witness :
  isASCII "I saw a MONKEY today" = true
  /\ forallb isASCII ["Monkey"; "BANANA"; "saw A"] = true
  /\ foundTerms exampleLower "I saw a MONKEY today" (map (ToLower exampleLower) ["Monkey"; "BANANA"; "saw A"])
     = ["monkey"; "saw a"].
Proof.
  split; [reflexivity|]. split; [reflexivity|].
  rewrite (proj2 (foundTerms_ignores_ascii_case exampleLower "I saw a MONKEY today"
                    ["Monkey"; "BANANA"; "saw A"] eq_refl eq_refl)).
  reflexivity.
Defined.

(** A comma inside a term is not escaped before the terms are joined
    (line 109): the request that tracks one term [a,b] is byte for byte
    the request that tracks the two terms [a] and [b]. *)
Theorem comma_in_a_term_separates_two_terms
        (sign : Credentials -> Credentials -> string -> string -> Values -> string)
        (r : TweetReader) (a b : string) (before after : list string) :
  Join (before ++ (a ++ "," ++ b)%string :: after) ","
  = Join (before ++ a :: b :: after) ","
  /\ filterRequest sign r (before ++ (a ++ "," ++ b)%string :: after)
     = filterRequest sign r (before ++ a :: b :: after).
Proof.
  assert (J : Join (before ++ (a ++ "," ++ b)%string :: after) ","
              = Join (before ++ a :: b :: after) ",").
  { rewrite !Join_concat. apply concat_split_at_separator. }
  split; [exact J|].
  unfold filterRequest, form. now rewrite J.
Qed.


Lemma connections_are_closed_once_witness :
  exampleRun exampleTerms recycledSchedule Run = Some recycledSession
  /\ NoDup (closes (trace recycledSession))
  /\ closes (trace recycledSession) = [0; 1].
Proof.
  split; [reflexivity|]. split; [|reflexivity].
  exact (proj1 (connections_are_closed_once exampleLower exampleEOF exampleSigner exampleReader
                  exampleTerms recycledSchedule recycledSession eq_refl)).
Defined.

Lemma pump_connection_is_registered_or_closed_witness :
  exampleRun exampleTerms recycledSchedule Run = Some recycledSession
  /\ pumpHandle (pump recycledSession) = Some 2
  /\ 3 = dialed recycledSession.
Proof.
  split; [reflexivity|]. split; [reflexivity|].
  exact (proj1 (pump_connection_is_registered_or_closed exampleLower exampleEOF exampleSigner
                  exampleReader exampleTerms recycledSchedule recycledSession 2
                  eq_refl eq_refl)).
Defined.

Lemma recycles_are_two_minutes_apart_witness :
  exampleRun exampleTerms recycleDueSchedule Run = Some recycleDueSession
  /\ exampleRun exampleTerms [RecyclerTimer] recycleDueSession = Some justRecycledSession
  /\ (2 * Minute <= now recycleDueSession)%Z.
Proof.
  split; [reflexivity|]. split; [reflexivity|].
  exact (proj1 (recycles_are_two_minutes_apart exampleLower exampleEOF exampleSigner exampleReader
                  exampleTerms recycleDueSchedule recycleDueSession justRecycledSession
                  eq_refl eq_refl)).
Defined.

Lemma cancel_while_decoding_closes_channel_witness :
  exampleRun exampleTerms (attempt (RTResponds StatusOK "")) Run = Some decodingSession
  /\ pump decodingSession = PDecode 0
  /\ recycler decodingSession = RSelect 0
  /\ exists s',
      exampleRun exampleTerms cancelWhileDecoding decodingSession = Some s'
      /\ pump s' = PExit /\ recycler s' = RExit
      /\ chanCloses s' = 1
      /\ tweetsChan s' = tweetsChan decodingSession
      /\ requests (trace s') = requests (trace decodingSession)
      /\ conn s' = None
      /\ dialed s' = dialed decodingSession
      /\ (forall c', c' < dialed s' -> closedIn (trace s') c' = true).
Proof.
  split; [reflexivity|]. split; [reflexivity|]. split; [reflexivity|].
  exact (cancel_while_decoding_closes_channel exampleLower exampleEOF exampleSigner exampleReader
           exampleTerms (attempt (RTResponds StatusOK "")) decodingSession 0 0%Z
           eq_refl eq_refl eq_refl).
Defined.

Lemma session_is_over_after_both_return_witness :
  pump cancelledSession = PExit
  /\ recycler cancelledSession = RExit
  /\ exampleRun exampleTerms afterwardsSchedule cancelledSession = Some afterwardsSession
  /\ trace afterwardsSession = trace cancelledSession.
Proof.
  split; [reflexivity|]. split; [reflexivity|]. split; [reflexivity|].
  exact (proj1 (proj2 (proj2 (proj2
           (session_is_over_after_both_return exampleLower exampleEOF exampleSigner exampleReader
              exampleTerms afterwardsSchedule cancelledSession afterwardsSession
              eq_refl eq_refl eq_refl))))).
Defined.

Lemma Body_filterRequest
      (sign : Credentials -> Credentials -> string -> string -> Values -> string)
      (r : TweetReader) (terms : list string) :
  Body (filterRequest sign r terms) = ("track=" ++ QueryEscape (Join terms ","))%string.
Proof. reflexivity. Qed.

(** The body of the request loses nothing of the joined terms: reading
    the escapes of the track value back gives the joined string, so two
    term lists make the same body exactly when they join to the same
    string. *)
Theorem filter_request_body_determines_the_joined_terms
        (sign : Credentials -> Credentials -> string -> string -> Values -> string)
        (r : TweetReader) (terms1 terms2 : list string) :
  (Body (filterRequest sign r terms1) = Body (filterRequest sign r terms2)
   <-> Join terms1 "," = Join terms2 ",")
  /\ Body (filterRequest sign r terms1)
     = ("track=" ++ QueryEscape (Join terms1 ","))%string
  /\ unescape (QueryEscape (Join terms1 ",")) = Join terms1 ",".
Proof.
  split; [|split; [apply Body_filterRequest | apply unescape_QueryEscape]].
  rewrite !Body_filterRequest. split.
  - intros H. apply QueryEscape_inj. cbn in H. now inversion H.
  - now intros ->.
Qed.

Lemma first_line_of_error_body_is_logged_witness :
  allBytes inLine "Easy there, Turbo" = true
  /\ scanText exampleEOF ("Easy there, Turbo" ++ String "013" (String "010" "more"))
     = "Easy there, Turbo".
Proof.
  split; [reflexivity|].
  exact (proj2 (proj2 (first_line_of_error_body_is_logged exampleEOF
                         "Easy there, Turbo" "more" eq_refl eq_refl))).
Defined.

Lemma every_received_tweet_is_annotated_witness :
  exampleRun exampleTerms cancelledSchedule Run = Some cancelledSession
  /\ tweetsChan cancelledSession = [mkTweet "banana" ["banana"]]
  /\ tweetsChan cancelledSession = sends (trace cancelledSession).
Proof.
  split; [reflexivity|]. split; [reflexivity|].
  exact (proj1 (every_received_tweet_is_annotated exampleLower exampleEOF exampleSigner exampleReader
                  exampleTerms cancelledSchedule cancelledSession eq_refl)).
Defined.
